(** * Neon pendulum animation: a shallow embedding of [animation.py]

    The script is one module: constants, a colour helper, five drawing
    routines and the main loop.  Every routine is embedded as a function
    that returns the list of pygame calls it makes, in order, so that a
    statement about "what is drawn" is a statement about that list.

    Numbers.  Python [int]s are [Z].  Python [float]s are embedded as exact
    numbers: as [Q] where the source only uses [+ - * /] on integers (the
    blend factor and the alpha of the trail, the elapsed time), and as [R]
    where it uses [sin], [cos], [hypot] or [atan2] (the pendulum, the
    geometry).  Rounding error of the binary64 operations is therefore not
    part of the model.  [int(x)] is truncation towards zero and [round(x)]
    is rounding to nearest with ties to even, as in Python 3. *)

From Stdlib Require Import Reals Lra Lia ZArith QArith Qround List Bool Zfloor.
From Stdlib Require Lqa.
Import ListNotations.
Open Scope R_scope.

(** ** Python numeric helpers *)

(** [int(x)] on a float: truncation towards zero. *)
Definition py_int (x : R) : Z :=
  if Rle_dec 0 x then Zfloor x else (- Zfloor (- x))%Z.

(** [round(x)] on a float: nearest integer, ties to the even one. *)
Definition py_round (x : R) : Z :=
  let f := Zfloor x in
  let d := x - IZR f in
  if Rlt_dec d (1 / 2) then f
  else if Rlt_dec (1 / 2) d then (f + 1)%Z
  else if Z.even f then f else (f + 1)%Z.

(** [int(q)] on an exactly represented quotient. *)
Definition Qint (q : Q) : Z := Z.quot (Qnum q) (Zpos (Qden q)).

(** [range(start, stop, step)] for a positive step. *)
Definition py_range (start stop step : Z) : list Z :=
  map (fun k => (start + Z.of_nat k * step)%Z)
      (seq 0 (Z.to_nat ((stop - start + step - 1) / step))).

(** [math.radians], [math.hypot], [math.atan2]. *)
Definition radians (deg : R) : R := deg * PI / 180.

Definition hypot (x y : R) : R := sqrt (x * x + y * y).

Definition atan2 (y x : R) : R :=
  if Rlt_dec 0 x then atan (y / x)
  else if Rlt_dec x 0 then
         if Rle_dec 0 y then atan (y / x) + PI else atan (y / x) - PI
  else if Rlt_dec 0 y then PI / 2
  else if Rlt_dec y 0 then - (PI / 2)
  else 0.

(** ** Constants *)

Definition WIDTH : Z := 800.
Definition HEIGHT : Z := 600.
Definition FPS : Z := 60.
Definition TIME_LIMIT : Z := 10.

Definition PENDULUM_ANCHOR : Z * Z := (400, 100)%Z.
Definition PENDULUM_LENGTH : Z := 150.
Definition GRAVITY : R := 0.5.
Definition DAMPING : R := 0.96.

Definition HEXAGON_SIDE : Z := 20.
Definition HEXAGON_ROTATION_SPEED : R := radians 3.

Definition TRAIL_LENGTH : nat := 8.

Definition LIGHT_BEAM_THRESHOLD : Z := 5.
Definition LIGHT_BEAM_SPREAD : R := radians 30.
Definition BEAM_COUNT : nat := 6.
Definition BEAM_LENGTH : Z := 100.

Definition GRID_SPACING : Z := 15.
Definition GRID_WARP_RADIUS : Z := 150.

Definition NUM_VORTEX_PARTICLES : nat := 100.
Definition VORTEX_ROTATION_SPEED : R := 0.02.
Definition VORTEX_CENTER : Z * Z := (WIDTH / 2, HEIGHT / 2)%Z.

(** ** Colours, surfaces and the pygame calls *)

Definition rgb : Type := Z * Z * Z.

Inductive color : Type :=
| RGB (c : rgb)
| RGBA (c : rgb) (alpha : Z).

Definition BLACK : rgb := (0, 0, 0)%Z.
Definition CYAN : rgb := (0, 255, 255)%Z.
Definition PURPLE : rgb := (128, 0, 128)%Z.
Definition WHITE : rgb := (255, 255, 255)%Z.

(** The display surface and the three per-effect SRCALPHA surfaces. *)
Inductive surface : Type := screen | trail_surf | beams_surf | grid_surf.

Definition point : Type := R * R.

Definition ipoint (p : Z * Z) : point := (IZR (fst p), IZR (snd p)).

Inductive draw_cmd : Type :=
| fill (s : surface) (c : rgb)
| new_surface (s : surface)
| draw_line (s : surface) (c : color) (p q : point) (width : Z)
| draw_polygon (s : surface) (c : color) (pts : list point)
| draw_circle (s : surface) (c : color) (center : Z * Z) (radius : Z)
| blit (dst src : surface) (at_ : Z * Z)
| flip.

(** The surface a call writes to, when it writes to one. *)
Definition cmd_target (c : draw_cmd) : option surface :=
  match c with
  | fill s _ | new_surface s | draw_line s _ _ _ _
  | draw_polygon s _ _ | draw_circle s _ _ _ => Some s
  | blit _ src _ => Some src
  | flip => None
  end.

Definition surface_eqb (a b : surface) : bool :=
  match a, b with
  | screen, screen | trail_surf, trail_surf
  | beams_surf, beams_surf | grid_surf, grid_surf => true
  | _, _ => false
  end.

(** A call of the light-beam component: one that creates, draws on or
    composites [beams_surf]. *)
Definition is_beam_cmd (c : draw_cmd) : bool :=
  match cmd_target c with
  | Some s => surface_eqb s beams_surf
  | None => false
  end.

(** ** Utility functions *)

Definition interpolate_color (c1 c2 : rgb) (t : Q) : rgb :=
  let '(r1, g1, b1) := c1 in
  let '(r2, g2, b2) := c2 in
  (Qint (inject_Z r1 * (1 - t) + inject_Z r2 * t)%Q,
   Qint (inject_Z g1 * (1 - t) + inject_Z g2 * t)%Q,
   Qint (inject_Z b1 * (1 - t) + inject_Z b2 * t)%Q).

(** ** Pendulum integrator (lines 171-174 of the main loop) *)

Section Integrator.
Variables gravity length damping : R.

Definition acceleration_of (ang : R) : R := (- gravity / length) * sin ang.

(** [angular_velocity += a; angular_velocity *= damping] *)
Definition velocity_update (vel acc : R) : R := (vel + acc) * damping.

(** One tick: returns (angle, angular_velocity, angular_acceleration). *)
Definition integrator_step (ang vel : R) : R * R * R :=
  let angular_acceleration := acceleration_of ang in
  let angular_velocity := velocity_update vel angular_acceleration in
  let angle := ang + angular_velocity in
  (angle, angular_velocity, angular_acceleration).
End Integrator.

Definition bob_of (ang : R) : point :=
  (IZR (fst PENDULUM_ANCHOR) + IZR PENDULUM_LENGTH * sin ang,
   IZR (snd PENDULUM_ANCHOR) + IZR PENDULUM_LENGTH * cos ang).

(** ** Hexagon *)

Definition hexagon_points : list point :=
  map (fun i : nat =>
         let theta := radians (60 * INR i) in
         (IZR HEXAGON_SIDE * cos theta, IZR HEXAGON_SIDE * sin theta))
      (seq 0 6).

Definition draw_hexagon (s : surface) (center : point) (ang : R) (c : rgb)
  : list draw_cmd :=
  let rotated_points :=
    map (fun p : point =>
           let (x, y) := p in
           let rx := x * cos ang - y * sin ang in
           let ry := x * sin ang + y * cos ang in
           (fst center + rx, snd center + ry))
        hexagon_points in
  [draw_polygon s (RGB c) rotated_points].

(** ** Neon trail *)

(** The trail update of the main loop: append, then drop the oldest entry
    once the list is longer than the capacity.  Generic in the capacity and
    in the type of the stored positions. *)
Definition trail_update {A : Type} (capacity : nat) (trail : list A) (bob : A)
  : list A :=
  let trail := trail ++ [bob] in
  if (capacity <? length trail)%nat then tl trail else trail.

(** Blend factor, colour and alpha of segment [i] of an [n]-point trail. *)
Definition trail_t (n i : nat) : Q :=
  (inject_Z (Z.of_nat i) / inject_Z (Z.of_nat (n - 1)))%Q.

Definition trail_alpha (n i : nat) : Z :=
  Qint (inject_Z (255 * Z.of_nat (i + 1)) / inject_Z (Z.of_nat n))%Q.

Definition trail_segment_color (n i : nat) : color :=
  RGBA (interpolate_color PURPLE CYAN (trail_t n i)) (trail_alpha n i).

Definition trail_segment (trail_points : list point) (i : nat) : draw_cmd :=
  let n := length trail_points in
  draw_line trail_surf (trail_segment_color n i)
            (nth i trail_points (0, 0)) (nth (i + 1) trail_points (0, 0)) 3.

(** The [draw_line] calls of [draw_neon_trail], oldest segment first. *)
Definition trail_segments (trail_points : list point) : list draw_cmd :=
  map (trail_segment trail_points) (seq 0 (length trail_points - 1)).

Definition draw_neon_trail (s : surface) (trail_points : list point)
  : list draw_cmd :=
  if (length trail_points <? 2)%nat then []
  else new_surface trail_surf :: trail_segments trail_points
       ++ [blit s trail_surf (0, 0)%Z].

(** ** Light beams *)

Definition beam (center : point) (count : nat) (length : Z) (i : nat)
  : draw_cmd :=
  let half_spread := LIGHT_BEAM_SPREAD / 2 in
  let central_angle := INR i * (2 * PI / INR count) in
  let angle1 := central_angle - half_spread in
  let angle2 := central_angle + half_spread in
  let point1 := center in
  let point2 := (fst center + IZR length * cos angle1,
                 snd center + IZR length * sin angle1) in
  let point3 := (fst center + IZR length * cos angle2,
                 snd center + IZR length * sin angle2) in
  draw_polygon beams_surf (RGBA (255, 255, 255)%Z 80) [point1; point2; point3].

Definition draw_light_beams (s : surface) (center : point)
           (count : nat) (length : Z) : list draw_cmd :=
  new_surface beams_surf :: map (beam center count length) (seq 0 count)
  ++ [blit s beams_surf (0, 0)%Z].

(** ** Warped grid *)

Section Grid.
Variables (warp_center : point) (warp_radius : Z).

Definition grid_dx (x : Z) : R := IZR x - fst warp_center.
Definition grid_dy (y : Z) : R := IZR y - snd warp_center.
Definition grid_r (x y : Z) : R := hypot (grid_dx x) (grid_dy y).

(** The guard [r < warp_radius and r != 0]. *)
Definition takes_warp_branch (x y : Z) : bool :=
  (if Rlt_dec (grid_r x y) (IZR warp_radius) then true else false)
  && (if Req_dec_T (grid_r x y) 0 then false else true).

Definition warp_theta (x y : Z) : R := atan2 (grid_dy y) (grid_dx x).

Definition warp_new_r (x y : Z) : Z :=
  (py_round (grid_r x y / IZR GRID_SPACING) * GRID_SPACING)%Z.

(** [(new_x, new_y)] of the warp branch. *)
Definition warp_point (x y : Z) : point :=
  let theta := warp_theta x y in
  let new_r := warp_new_r x y in
  (fst warp_center + IZR new_r * cos theta,
   snd warp_center + IZR new_r * sin theta).

(** The body of the double loop: the one circle drawn for [(x, y)]. *)
Definition grid_dot (x y : Z) : draw_cmd :=
  if takes_warp_branch x y then
    let (new_x, new_y) := warp_point x y in
    draw_circle grid_surf (RGBA (50, 50, 50)%Z 150)
                (py_int new_x, py_int new_y) 2
  else
    draw_circle grid_surf (RGBA (50, 50, 50)%Z 150) (x, y) 1.

Definition draw_warped_grid (s : surface) : list draw_cmd :=
  new_surface grid_surf
  :: flat_map (fun x => map (grid_dot x) (py_range 0 HEIGHT GRID_SPACING))
              (py_range 0 WIDTH GRID_SPACING)
  ++ [blit s grid_surf (0, 0)%Z].
End Grid.

(** ** Vortex *)

Record particle : Type :=
  { particle_angle : R; particle_radius : R }.

Definition update_particle (p : particle) : particle :=
  {| particle_angle := particle_angle p - VORTEX_ROTATION_SPEED;
     particle_radius := particle_radius p |}.

Definition draw_particle (s : surface) (center : Z * Z) (p : particle)
  : draw_cmd :=
  let x := IZR (fst center) + particle_radius p * cos (particle_angle p) in
  let y := IZR (snd center) + particle_radius p * sin (particle_angle p) in
  draw_circle s (RGB WHITE) (py_int x, py_int y) 1.

(** Returns the particles as the loop leaves them and the calls made. *)
Definition update_and_draw_vortex (s : surface) (particles : list particle)
           (center : Z * Z) : list particle * list draw_cmd :=
  let particles := map update_particle particles in
  (particles, map (draw_particle s center) particles).

(** ** Main loop *)

(** The module-level variables the loop reads and writes. *)
Record state : Type :=
  { angle : R;
    angular_velocity : R;
    angular_acceleration : R;
    hexagon_angle : R;
    trail : list point;
    vortex_particles : list particle;
    running : bool }.

(** The state before the first iteration; the particles are the random
    draws of the set-up code. *)
Definition initial_state (particles : list particle) : state :=
  {| angle := PI / 4;
     angular_velocity := 0;
     angular_acceleration := 0;
     hexagon_angle := 0;
     trail := [];
     vortex_particles := particles;
     running := true |}.

(** What one iteration observes of its environment: whether the event
    queue holds a QUIT event, and the value [pygame.time.get_ticks()]
    returns at the time-limit check, in milliseconds. *)
Record tick_input : Type :=
  { quit_event : bool; now_ticks : Z }.

Definition elapsed (start_ticks now : Z) : Q :=
  (inject_Z (now - start_ticks) / 1000)%Q.

Definition over_time_limit (start_ticks now : Z) : bool :=
  if Qlt_le_dec (inject_Z TIME_LIMIT) (elapsed start_ticks now)
  then true else false.

(** The velocity gate of the beam component. *)
Definition beams_gate (vel : R) : bool :=
  let velocity := Rabs vel * IZR PENDULUM_LENGTH in
  if Rlt_dec (IZR LIGHT_BEAM_THRESHOLD) velocity then true else false.

(** One pass through the body of [while running]. *)
Definition loop_body (start_ticks : Z) (inp : tick_input) (st : state)
  : state * list draw_cmd :=
  let running := if quit_event inp then false else running st in
  let '(angle, angular_velocity, angular_acceleration) :=
    integrator_step GRAVITY (IZR PENDULUM_LENGTH) DAMPING
                    (angle st) (angular_velocity st) in
  let bob := bob_of angle in
  let rod := [draw_line screen (RGB CYAN) (ipoint PENDULUM_ANCHOR) bob 2] in
  let hexagon_angle := hexagon_angle st + HEXAGON_ROTATION_SPEED in
  let hexagon := draw_hexagon screen bob hexagon_angle CYAN in
  let trail := trail_update TRAIL_LENGTH (trail st) bob in
  let neon := draw_neon_trail screen trail in
  let beams :=
    if beams_gate angular_velocity
    then draw_light_beams screen bob BEAM_COUNT BEAM_LENGTH else [] in
  let grid := draw_warped_grid bob GRID_WARP_RADIUS screen in
  let '(vortex_particles, vortex) :=
    update_and_draw_vortex screen (vortex_particles st) VORTEX_CENTER in
  let running :=
    if over_time_limit start_ticks (now_ticks inp) then false else running in
  ({| angle := angle;
      angular_velocity := angular_velocity;
      angular_acceleration := angular_acceleration;
      hexagon_angle := hexagon_angle;
      trail := trail;
      vortex_particles := vortex_particles;
      running := running |},
   fill screen BLACK :: rod ++ hexagon ++ neon ++ beams ++ grid ++ vortex
   ++ [flip]).

(** [while running: body], on the inputs [inputs k] of iteration [k].
    Returns the number of iterations made and the final state, or [None]
    when [fuel] iterations were not enough to leave the loop. *)
Fixpoint main_loop (fuel : nat) (start_ticks : Z) (inputs : nat -> tick_input)
         (k : nat) (st : state) : option (nat * state) :=
  if running st then
    match fuel with
    | O => None
    | S fuel' =>
        main_loop fuel' start_ticks inputs (S k)
                  (fst (loop_body start_ticks (inputs k) st))
    end
  else Some (k, st).

(** The state after [n] passes through the body, whatever [running] says:
    used to speak about "after [n] ticks". *)
Fixpoint after_ticks (start_ticks : Z) (inputs : nat -> tick_input)
         (n : nat) (st : state) : state :=
  match n with
  | O => st
  | S n' =>
      fst (loop_body start_ticks (inputs n')
                     (after_ticks start_ticks inputs n' st))
  end.

(** The bob position computed in tick [k] (ticks are numbered from 1). *)
Definition bob_at (start_ticks : Z) (inputs : nat -> tick_input)
           (st : state) (k : nat) : point :=
  bob_of (angle (after_ticks start_ticks inputs k st)).

(** The angle the integrator assigns in a pass that starts in [st]. *)
Definition next_angle (st : state) : R :=
  angle st + (angular_velocity st
              + (- GRAVITY / IZR PENDULUM_LENGTH) * sin (angle st)) * DAMPING.

(** ** Sample environments *)

(** No QUIT event, a clock that stands still. *)
Definition idle_inputs : nat -> tick_input :=
  fun _ => {| quit_event := false; now_ticks := 0 |}.

(** Clock readings 5 s, 10 s, 15 s, ...: at the second check the elapsed
    time equals the limit. *)
Definition slow_inputs : nat -> tick_input :=
  fun i => {| quit_event := false; now_ticks := 5000 * (Z.of_nat i + 1) |}.

(** ** Names used in the further properties *)

(** Vertex [i] of a hexagon of radius [HEXAGON_SIDE] around [center],
    turned by [ang]. *)
Definition hexagon_vertex (center : point) (ang : R) (i : nat) : point :=
  (fst center + IZR HEXAGON_SIDE * cos (radians (60 * INR i) + ang),
   snd center + IZR HEXAGON_SIDE * sin (radians (60 * INR i) + ang)).

(** A white dot of radius 1 whose pixel lies in the band the vortex can
    reach around the centre (400, 300). *)
Definition vortex_dot_in_canvas (c : draw_cmd) : Prop :=
  exists x y : Z,
    c = draw_circle screen (RGB WHITE) (x, y) 1
    /\ (290 <= x <= 510)%Z /\ (190 <= y <= 410)%Z.

(** One particle as the set-up could draw it. *)
Definition sample_particle : particle :=
  {| particle_angle := 0; particle_radius := 100 |}.

(** An iteration ends the loop when it sees a QUIT event or reads a clock
    past the limit. *)
Definition stops (start_ticks : Z) (inp : tick_input) : bool :=
  quit_event inp || over_time_limit start_ticks (now_ticks inp).

(** A 16 ms clock and a QUIT event in the third iteration. *)
Definition quit_at_2 : nat -> tick_input :=
  fun i => {| quit_event := (i =? 2)%nat; now_ticks := 16 * Z.of_nat i |}.

(** * Properties *)

(** ** The new state and the calls of one iteration, component by component *)

Lemma loop_body_angle start_ticks inp st :
  angle (fst (loop_body start_ticks inp st)) = next_angle st.
Proof. reflexivity. Qed.

Lemma loop_body_velocity start_ticks inp st :
  angular_velocity (fst (loop_body start_ticks inp st))
  = (angular_velocity st
     + (- GRAVITY / IZR PENDULUM_LENGTH) * sin (angle st)) * DAMPING.
Proof. reflexivity. Qed.

Lemma loop_body_acceleration start_ticks inp st :
  angular_acceleration (fst (loop_body start_ticks inp st))
  = (- GRAVITY / IZR PENDULUM_LENGTH) * sin (angle st).
Proof. reflexivity. Qed.

Lemma loop_body_trail start_ticks inp st :
  trail (fst (loop_body start_ticks inp st))
  = trail_update TRAIL_LENGTH (trail st) (bob_of (next_angle st)).
Proof. reflexivity. Qed.

Lemma loop_body_running start_ticks inp st :
  running (fst (loop_body start_ticks inp st))
  = if over_time_limit start_ticks (now_ticks inp) then false
    else if quit_event inp then false else running st.
Proof. reflexivity. Qed.

Lemma loop_body_cmds start_ticks inp st :
  let st' := fst (loop_body start_ticks inp st) in
  let bob := bob_of (angle st') in
  snd (loop_body start_ticks inp st)
  = fill screen BLACK
    :: [draw_line screen (RGB CYAN) (ipoint PENDULUM_ANCHOR) bob 2]
    ++ draw_hexagon screen bob (hexagon_angle st') CYAN
    ++ draw_neon_trail screen (trail st')
    ++ (if beams_gate (angular_velocity st')
        then draw_light_beams screen bob BEAM_COUNT BEAM_LENGTH else [])
    ++ draw_warped_grid bob GRID_WARP_RADIUS screen
    ++ map (draw_particle screen VORTEX_CENTER) (vortex_particles st')
    ++ [flip].
Proof. reflexivity. Qed.

(** ** Pendulum integrator *)

(** C1. One tick computes the acceleration from the old angle, then the
    damped velocity from the old velocity and that acceleration, then the
    angle from the old angle and that velocity.  From the initial state
    (angle pi/4, velocity 0) the three values after the first tick are
    -(0.5/150)*sin(pi/4), that times 0.96, and pi/4 plus that velocity, each
    within 1e-9. *)
Theorem C1_integrator_tick :
  (forall start_ticks inp st,
      let st' := fst (loop_body start_ticks inp st) in
      angular_acceleration st'
      = - (GRAVITY / IZR PENDULUM_LENGTH) * sin (angle st)
      /\ angular_velocity st'
         = (angular_velocity st + angular_acceleration st') * DAMPING
      /\ angle st' = angle st + angular_velocity st')
  /\ (forall start_ticks inp particles,
         let st1 := fst (loop_body start_ticks inp (initial_state particles)) in
         let a := - (0.5 / 150) * sin (PI / 4) in
         let v := a * 0.96 in
         Rabs (angular_acceleration st1 - a) <= 1e-9
         /\ Rabs (angular_velocity st1 - v) <= 1e-9
         /\ Rabs (angle st1 - (PI / 4 + v)) <= 1e-9).
Proof.
  split.
  - intros start_ticks inp st st'. subst st'.
    rewrite loop_body_acceleration, loop_body_velocity, loop_body_angle.
    unfold next_angle. repeat split.
    unfold Rdiv. ring.
  - intros start_ticks inp particles st1 a v. subst st1 a v.
    rewrite loop_body_acceleration, loop_body_velocity, loop_body_angle.
    unfold next_angle, initial_state, GRAVITY, PENDULUM_LENGTH, DAMPING.
    cbn [angle angular_velocity].
    assert (E : forall x y : R, x = y -> Rabs (x - y) <= 1e-9).
    { intros x y ->. replace (y - y) with 0 by ring. rewrite Rabs_R0. lra. }
    repeat split; apply E; unfold Rdiv; ring.
Qed.

(** C7. With a damping factor strictly between 0 and 1 and a zero
    acceleration term, the velocity update does not increase the magnitude
    of the angular velocity; it decreases it unless the velocity is 0. *)
Theorem C7_damping_monotone (gravity length damping ang vel : R) :
  0 < damping < 1 ->
  acceleration_of gravity length ang = 0 ->
  let '(_, vel', _) := integrator_step gravity length damping ang vel in
  Rabs vel' <= Rabs vel /\ (vel <> 0 -> Rabs vel' < Rabs vel).
Proof.
  intros Hd Hacc. unfold integrator_step, velocity_update. rewrite Hacc.
  rewrite Rplus_0_r, Rabs_mult, (Rabs_pos_eq damping) by lra.
  pose proof (Rabs_pos vel) as Hv. split.
  - nra.
  - intros Hne. apply Rabs_pos_lt in Hne. nra.
Qed.

Lemma C7_damping_monotone_witness :
  0 < DAMPING < 1
  /\ acceleration_of GRAVITY (IZR PENDULUM_LENGTH) 0 = 0
  /\ Rabs (velocity_update DAMPING 1 0) < Rabs 1.
Proof.
  assert (Hd : 0 < DAMPING < 1) by (unfold DAMPING; lra).
  assert (Ha : acceleration_of GRAVITY (IZR PENDULUM_LENGTH) 0 = 0).
  { unfold acceleration_of. rewrite sin_0. ring. }
  split; [exact Hd|]. split; [exact Ha|].
  pose proof (C7_damping_monotone GRAVITY (IZR PENDULUM_LENGTH) DAMPING 0 1
                                  Hd Ha) as H.
  unfold integrator_step in H. rewrite Ha in H.
  apply (proj2 H). lra.
Defined.

(** ** Trail history *)

Section TrailWindow.
Context {A : Type}.
Variable capacity : nat.

Lemma tl_skipn (k : nat) (l : list A) : tl (skipn k l) = skipn (S k) l.
Proof.
  revert l. induction k as [|k IH]; intros [|a l]; try reflexivity.
  rewrite !skipn_cons. apply IH.
Qed.

Lemma trail_update_length (tr : list A) (b : A) :
  (length tr <= capacity)%nat ->
  length (trail_update capacity tr b) = Nat.min capacity (S (length tr)).
Proof.
  intros H. unfold trail_update.
  destruct (Nat.ltb_spec capacity (length (tr ++ [b]))) as [Hlt|Hge].
  - rewrite length_app in Hlt.
    destruct tr as [|a tr]; cbn [app tl length] in *; [lia|].
    rewrite length_app. cbn [length]. lia.
  - rewrite length_app in *. cbn [length] in *. lia.
Qed.

(** Pushing the positions [bobs], oldest first, into an empty trail
    leaves the last [capacity] of them, in the same order. *)
Lemma trail_window (bobs : list A) :
  fold_left (trail_update capacity) bobs []
  = skipn (length bobs - capacity) bobs.
Proof.
  induction bobs as [|b bobs IH] using rev_ind; [reflexivity|].
  rewrite fold_left_app. cbn [fold_left]. rewrite IH. clear IH.
  unfold trail_update. rewrite !length_app, length_skipn. cbn [length].
  destruct (Nat.ltb_spec capacity (length bobs - (length bobs - capacity) + 1))
    as [Hlt|Hge].
  - replace (length bobs + 1 - capacity)%nat
      with (S (length bobs - capacity)) by lia.
    rewrite <- tl_skipn. rewrite skipn_app.
    replace (length bobs - capacity - length bobs)%nat with O by lia.
    reflexivity.
  - replace (length bobs + 1 - capacity)%nat with O by lia.
    replace (length bobs - capacity)%nat with O by lia.
    reflexivity.
Qed.
End TrailWindow.

(** The trail after [n] ticks is the fold of the update over the bob
    positions of ticks 1 to [n]. *)
Lemma after_ticks_trail start_ticks inputs st n :
  trail (after_ticks start_ticks inputs n st)
  = fold_left (trail_update TRAIL_LENGTH)
              (map (bob_at start_ticks inputs st) (seq 1 n)) (trail st).
Proof.
  induction n as [|n IH]; [reflexivity|].
  rewrite seq_S, map_app, fold_left_app. cbn [map fold_left].
  rewrite <- IH. cbn [after_ticks]. rewrite loop_body_trail.
  unfold bob_at. cbn [after_ticks Nat.add]. rewrite loop_body_angle.
  reflexivity.
Qed.

(** C3. After [t >= TRAIL_LENGTH] ticks the trail holds exactly
    [TRAIL_LENGTH] points: the bob positions of the last [TRAIL_LENGTH]
    ticks, oldest first.  Every tick puts the new position at the end and,
    once the trail is full, removes the first one. *)
Theorem C3_trail_sliding_window start_ticks inputs particles (t : nat) :
  (TRAIL_LENGTH <= t)%nat ->
  let st0 := initial_state particles in
  let tr := fun k => trail (after_ticks start_ticks inputs k st0) in
  length (tr t) = TRAIL_LENGTH
  /\ tr t = map (bob_at start_ticks inputs st0)
                (seq (t - TRAIL_LENGTH + 1) TRAIL_LENGTH)
  /\ (forall k,
         tr (S k) = (if (length (tr k) <? TRAIL_LENGTH)%nat
                     then tr k else tl (tr k))
                    ++ [bob_at start_ticks inputs st0 (S k)]).
Proof.
  intros Ht st0 tr.
  assert (Htr : forall k, tr k = map (bob_at start_ticks inputs st0)
                                     (seq (1 + (k - TRAIL_LENGTH))
                                          (k - (k - TRAIL_LENGTH)))).
  { intros k. unfold tr. rewrite after_ticks_trail. cbn [trail st0 initial_state].
    rewrite trail_window, length_map, length_seq, skipn_map, skipn_seq.
    reflexivity. }
  split; [|split].
  - rewrite Htr, length_map, length_seq. lia.
  - rewrite Htr. f_equal. f_equal; lia.
  - intros k.
    assert (Hlen : length (tr k) = (k - (k - TRAIL_LENGTH))%nat)
      by (rewrite Htr, length_map, length_seq; reflexivity).
    unfold tr at 1. cbn [after_ticks]. rewrite loop_body_trail.
    fold (tr k). unfold trail_update, bob_at. cbn [after_ticks].
    rewrite loop_body_angle, length_app, Hlen. cbn [length].
    destruct (Nat.ltb_spec (k - (k - TRAIL_LENGTH)) TRAIL_LENGTH) as [Hlt|Hge].
    + destruct (Nat.ltb_spec TRAIL_LENGTH (k - (k - TRAIL_LENGTH) + 1));
        [lia|reflexivity].
    + destruct (Nat.ltb_spec TRAIL_LENGTH (k - (k - TRAIL_LENGTH) + 1));
        [|lia].
      destruct (tr k) as [|p l] eqn:E; [|reflexivity].
      cbn [length] in Hlen. unfold TRAIL_LENGTH in *. lia.
Qed.

Lemma C3_trail_sliding_window_witness :
  (TRAIL_LENGTH <= 9)%nat
  /\ length (trail (after_ticks 0 idle_inputs 9 (initial_state [])))
     = TRAIL_LENGTH.
Proof.
  assert (H : (TRAIL_LENGTH <= 9)%nat) by (unfold TRAIL_LENGTH; lia).
  split; [exact H|].
  exact (proj1 (C3_trail_sliding_window 0 idle_inputs [] 9 H)).
Defined.

(** ** Trail gradient *)

(** With blend factor 0 the interpolation returns its first colour. *)
Lemma interpolate_color_0 (c1 c2 : rgb) (d : positive) :
  interpolate_color c1 c2 (0 # d) = c1.
Proof.
  destruct c1 as [[r1 g1] b1], c2 as [[r2 g2] b2].
  unfold interpolate_color, Qint. cbn.
  rewrite !Z.mul_0_r, !Z.mul_0_l, !Z.add_0_r, Pos2Z.inj_mul.
  rewrite <- !Z.mul_assoc, !Z.quot_mul by lia. reflexivity.
Qed.

(** The oldest segment of any trail that is drawn has blend factor 0 and
    colour PURPLE. *)
Lemma trail_first_segment_purple (n : nat) :
  (2 <= n)%nat ->
  trail_segment_color n 0 = RGBA PURPLE (trail_alpha n 0).
Proof.
  intros Hn. unfold trail_segment_color. f_equal.
  unfold trail_t. destruct (Z.of_nat (n - 1)) as [|d|d] eqn:E; try lia.
  apply (interpolate_color_0 PURPLE CYAN d).
Qed.

(** The blend factor of the newest segment is [(n-2)/(n-1)], below 1. *)
Lemma trail_last_segment_t (n : nat) :
  (2 <= n)%nat -> (trail_t n (n - 2) < 1)%Q.
Proof.
  intros Hn. unfold trail_t.
  assert (Hd : (0 < inject_Z (Z.of_nat (n - 1)))%Q).
  { replace 0%Q with (inject_Z 0) by reflexivity. rewrite <- Zlt_Qlt. lia. }
  apply Qlt_shift_div_r; [exact Hd|]. rewrite Qmult_1_l, <- Zlt_Qlt. lia.
Qed.

(** Whatever the length of the trail the loop can hold, the newest
    segment is not CYAN. *)
Lemma trail_last_segment_never_cyan :
  forallb (fun n => match trail_segment_color n (n - 2) with
                    | RGBA (r, g, b) _ =>
                        negb ((r =? 0)%Z && (g =? 255)%Z && (b =? 255)%Z)
                    | RGB _ => false
                    end)
          (seq 2 (TRAIL_LENGTH - 1)) = true.
Proof. vm_compute. reflexivity. Qed.

(** C2 (evaluation on a full trail).  For a trail of 8 points the first
    segment drawn is PURPLE, and the last segment drawn, the one between
    the two newest points, has blend factor 6/7 and colour (18, 218, 236),
    which is not CYAN. *)
Theorem C2_full_trail_segment_colors (p0 p1 p2 p3 p4 p5 p6 p7 : point) :
  let pts := [p0; p1; p2; p3; p4; p5; p6; p7] in
  draw_neon_trail screen pts
  = new_surface trail_surf :: trail_segments pts
    ++ [blit screen trail_surf (0, 0)%Z]
  /\ hd flip (trail_segments pts)
  = draw_line trail_surf (RGBA PURPLE 31) p0 p1 3
  /\ last (trail_segments pts) flip
     = draw_line trail_surf (RGBA (18, 218, 236)%Z 223) p6 p7 3
  /\ trail_t 8 6 = (6 # 7)%Q
  /\ (18, 218, 236)%Z <> CYAN.
Proof.
  intros pts. repeat split.
  intros H. discriminate H.
Qed.

(** ** Light beams *)

Lemma filter_none {A : Type} (f : A -> bool) (l : list A) :
  (forall x, In x l -> f x = false) -> filter f l = [].
Proof.
  induction l as [|a l IH]; intros H; [reflexivity|]. cbn [filter].
  rewrite (H a) by (left; reflexivity).
  apply IH. intros x Hx. apply H. right. exact Hx.
Qed.

Lemma filter_all {A : Type} (f : A -> bool) (l : list A) :
  (forall x, In x l -> f x = true) -> filter f l = l.
Proof.
  induction l as [|a l IH]; intros H; [reflexivity|]. cbn [filter].
  rewrite (H a) by (left; reflexivity). f_equal.
  apply IH. intros x Hx. apply H. right. exact Hx.
Qed.

Lemma hexagon_no_beam center ang c :
  filter is_beam_cmd (draw_hexagon screen center ang c) = [].
Proof. reflexivity. Qed.

Lemma neon_trail_no_beam pts :
  filter is_beam_cmd (draw_neon_trail screen pts) = [].
Proof.
  apply filter_none. intros x Hx. unfold draw_neon_trail in Hx.
  destruct (length pts <? 2)%nat; [destruct Hx|].
  destruct Hx as [<-|Hx]; [reflexivity|].
  apply in_app_or in Hx. destruct Hx as [Hx|[<-|[]]]; [|reflexivity].
  unfold trail_segments in Hx. apply in_map_iff in Hx.
  destruct Hx as [i [<- _]]. reflexivity.
Qed.

Lemma grid_no_beam warp_center warp_radius :
  filter is_beam_cmd (draw_warped_grid warp_center warp_radius screen) = [].
Proof.
  apply filter_none. intros c Hc. unfold draw_warped_grid in Hc.
  destruct Hc as [<-|Hc]; [reflexivity|].
  apply in_app_or in Hc. destruct Hc as [Hc|[<-|[]]]; [|reflexivity].
  apply in_flat_map in Hc. destruct Hc as [x [_ Hc]].
  apply in_map_iff in Hc. destruct Hc as [y [<- _]].
  unfold grid_dot. destruct (takes_warp_branch warp_center warp_radius x y).
  - destruct (warp_point warp_center x y). reflexivity.
  - reflexivity.
Qed.

Lemma vortex_no_beam center particles :
  filter is_beam_cmd (map (draw_particle screen center) particles) = [].
Proof.
  apply filter_none. intros c Hc. apply in_map_iff in Hc.
  destruct Hc as [p [<- _]]. reflexivity.
Qed.

Lemma light_beams_all_beam center count length :
  filter is_beam_cmd (draw_light_beams screen center count length)
  = draw_light_beams screen center count length.
Proof.
  apply filter_all. intros c Hc. unfold draw_light_beams in Hc.
  destruct Hc as [<-|Hc]; [reflexivity|].
  apply in_app_or in Hc. destruct Hc as [Hc|[<-|[]]]; [|reflexivity].
  apply in_map_iff in Hc. destruct Hc as [i [<- _]]. reflexivity.
Qed.

(** The beam calls of one iteration are the whole fan or nothing,
    according to the gate. *)
Lemma loop_body_beam_cmds start_ticks inp st :
  let st' := fst (loop_body start_ticks inp st) in
  filter is_beam_cmd (snd (loop_body start_ticks inp st))
  = if beams_gate (angular_velocity st')
    then draw_light_beams screen (bob_of (angle st')) BEAM_COUNT BEAM_LENGTH
    else [].
Proof.
  intros st'. rewrite loop_body_cmds. fold st'.
  cbn [filter is_beam_cmd cmd_target surface_eqb app].
  rewrite !filter_app, hexagon_no_beam, neon_trail_no_beam, grid_no_beam,
    vortex_no_beam.
  cbn [filter is_beam_cmd cmd_target app]. rewrite app_nil_r.
  destruct (beams_gate (angular_velocity st')); [|reflexivity].
  apply light_beams_all_beam.
Qed.

(** C4. In every iteration the beam component makes a call if and only
    if |angular_velocity| * PENDULUM_LENGTH is strictly greater than the
    threshold; then its calls are exactly the fan of [draw_light_beams],
    and otherwise it makes none. *)
Theorem C4_beam_gating start_ticks inp st :
  let st' := fst (loop_body start_ticks inp st) in
  let cmds := snd (loop_body start_ticks inp st) in
  let speed := Rabs (angular_velocity st') * IZR PENDULUM_LENGTH in
  ((exists c, In c cmds /\ is_beam_cmd c = true)
   <-> speed > IZR LIGHT_BEAM_THRESHOLD)
  /\ filter is_beam_cmd cmds
     = if Rgt_dec speed (IZR LIGHT_BEAM_THRESHOLD)
       then draw_light_beams screen (bob_of (angle st')) BEAM_COUNT BEAM_LENGTH
       else [].
Proof.
  intros st' cmds speed.
  pose proof (loop_body_beam_cmds start_ticks inp st) as Hf.
  cbn zeta in Hf. fold st' cmds in Hf.
  assert (Hg : beams_gate (angular_velocity st')
               = if Rgt_dec speed (IZR LIGHT_BEAM_THRESHOLD)
                 then true else false).
  { unfold beams_gate. fold speed.
    destruct (Rlt_dec (IZR LIGHT_BEAM_THRESHOLD) speed),
      (Rgt_dec speed (IZR LIGHT_BEAM_THRESHOLD)); try reflexivity;
      unfold Rgt in *; contradiction. }
  rewrite Hg in Hf. split.
  - split.
    + intros [c [Hin Hb]].
      destruct (Rgt_dec speed (IZR LIGHT_BEAM_THRESHOLD)) as [H|H]; [exact H|].
      assert (Hc : In c (filter is_beam_cmd cmds))
        by (apply filter_In; split; assumption).
      rewrite Hf in Hc. destruct Hc.
    + intros H.
      destruct (Rgt_dec speed (IZR LIGHT_BEAM_THRESHOLD)) as [_|N];
        [|contradiction].
      exists (new_surface beams_surf). split; [|reflexivity].
      apply (proj1 (filter_In is_beam_cmd _ cmds)). rewrite Hf. left.
      reflexivity.
  - rewrite Hf.
    destruct (Rgt_dec speed (IZR LIGHT_BEAM_THRESHOLD)); reflexivity.
Qed.

(** ** Pendulum rod *)

(** C9. Every iteration clears the screen, then draws a cyan line of
    width 2 from the anchor (400, 100) to the bob of the updated angle,
    then the hexagon polygon, then the rest. *)
Theorem C9_rod_drawn start_ticks inp st :
  let st' := fst (loop_body start_ticks inp st) in
  exists hexagon rest,
    snd (loop_body start_ticks inp st)
    = fill screen BLACK
      :: draw_line screen (RGB CYAN) (400, 100) (bob_of (angle st')) 2
      :: draw_polygon screen (RGB CYAN) hexagon
      :: rest
    /\ angle st' = next_angle st.
Proof.
  intros st'. rewrite loop_body_cmds. fold st'.
  eexists. eexists. split; [reflexivity|]. apply loop_body_angle.
Qed.

(** ** Facts about [hypot], [atan2], [round] and [int] *)

Lemma hypot_nonneg (x y : R) : 0 <= hypot x y.
Proof. apply sqrt_pos. Qed.

Lemma hypot_eq_0 (x y : R) : hypot x y = 0 -> x = 0 /\ y = 0.
Proof.
  unfold hypot. intros H. apply sqrt_eq_0 in H; [|nra]. split; nra.
Qed.

Lemma hypot_0_0 : hypot 0 0 = 0.
Proof.
  unfold hypot. replace (0 * 0 + 0 * 0) with 0 by ring. apply sqrt_0.
Qed.

Lemma hypot_scale (x y : R) :
  x <> 0 -> hypot x y = Rabs x * sqrt (1 + (y / x)²).
Proof.
  intros Hx. unfold hypot.
  replace (x * x + y * y) with (x² * (1 + (y / x)²))
    by (unfold Rsqr; field; exact Hx).
  rewrite sqrt_mult; [|apply Rle_0_sqr|pose proof (Rle_0_sqr (y / x)); lra].
  rewrite sqrt_Rsqr_abs. reflexivity.
Qed.

Lemma sqrt_1_sqr_pos (t : R) : 0 < sqrt (1 + t²).
Proof. apply sqrt_lt_R0. pose proof (Rle_0_sqr t). lra. Qed.

(** On every point but the origin, [atan2] returns the angle of the point:
    its cosine and sine are the coordinates divided by the distance. *)
Lemma cos_sin_atan2 (y x : R) :
  hypot x y <> 0 ->
  cos (atan2 y x) = x / hypot x y /\ sin (atan2 y x) = y / hypot x y.
Proof.
  intros Hr. unfold atan2.
  pose proof (sqrt_1_sqr_pos (y / x)) as Hs.
  destruct (Rlt_dec 0 x) as [Hx|Hx].
  - rewrite hypot_scale, Rabs_pos_eq, cos_atan, sin_atan by lra.
    split; field; lra.
  - destruct (Rlt_dec x 0) as [Hx'|Hx'].
    + assert (E : hypot x y = - x * sqrt (1 + (y / x)²)).
      { rewrite hypot_scale by lra. rewrite Rabs_left by lra. reflexivity. }
      rewrite E.
      destruct (Rle_dec 0 y) as [Hy|Hy].
      * rewrite neg_cos, neg_sin, cos_atan, sin_atan. split; field; lra.
      * rewrite cos_minus, sin_minus, cos_PI, sin_PI, cos_atan, sin_atan.
        split; field; lra.
    + assert (x = 0) by lra. subst x.
      assert (E : hypot 0 y = Rabs y).
      { unfold hypot. replace (0 * 0 + y * y) with (y²) by (unfold Rsqr; ring).
        apply sqrt_Rsqr_abs. }
      rewrite E in *.
      destruct (Rlt_dec 0 y) as [Hy|Hy].
      * rewrite cos_PI2, sin_PI2, Rabs_pos_eq by lra. split; field; lra.
      * destruct (Rlt_dec y 0) as [Hy'|Hy'].
        -- rewrite cos_neg, sin_neg, cos_PI2, sin_PI2, Rabs_left by lra.
           split; field; lra.
        -- assert (y = 0) by lra. subst y. rewrite Rabs_R0 in Hr.
           contradiction Hr. reflexivity.
Qed.

(** [round] returns an integer within 1/2 of its argument. *)
Lemma py_round_close (x : R) : Rabs (IZR (py_round x) - x) <= 1 / 2.
Proof.
  unfold py_round. pose proof (Zfloor_bound x) as [Hlo Hhi].
  destruct (Rlt_dec (x - IZR (Zfloor x)) (1 / 2)) as [H1|H1].
  - apply Rabs_le. lra.
  - assert (Hup : Rabs (IZR (Zfloor x + 1) - x) <= 1 / 2)
      by (rewrite plus_IZR; apply Rabs_le; lra).
    destruct (Rlt_dec (1 / 2) (x - IZR (Zfloor x))) as [H2|H2]; [exact Hup|].
    destruct (Z.even (Zfloor x)); [apply Rabs_le; lra|exact Hup].
Qed.

(** Hence no integer is closer to the argument than the result. *)
Lemma py_round_nearest (x : R) (k : Z) :
  Rabs (IZR (py_round x) - x) <= Rabs (IZR k - x).
Proof.
  pose proof (py_round_close x) as Hc.
  destruct (Z.eq_dec k (py_round x)) as [->|Hne]; [lra|].
  assert (H1 : 1 <= Rabs (IZR k - IZR (py_round x))).
  { rewrite <- minus_IZR, <- abs_IZR. apply IZR_le. lia. }
  pose proof (Rabs_triang (IZR k - x) (x - IZR (py_round x))) as Ht.
  replace (IZR k - x + (x - IZR (py_round x)))
    with (IZR k - IZR (py_round x)) in Ht by ring.
  rewrite (Rabs_minus_sym x) in Ht. lra.
Qed.

Lemma py_round_nonneg (x : R) : 0 <= x -> (0 <= py_round x)%Z.
Proof.
  intros Hx. unfold py_round.
  assert (H0 : (0 <= Zfloor x)%Z) by (apply Zfloor_lub; exact Hx).
  destruct (Rlt_dec _ _); [exact H0|].
  destruct (Rlt_dec _ _); [lia|]. destruct (Z.even _); lia.
Qed.

(** Below one half, and at one half, [round] returns 0. *)
Lemma py_round_small (x : R) : 0 <= x <= 1 / 2 -> py_round x = 0%Z.
Proof.
  intros Hx. unfold py_round.
  assert (E : Zfloor x = 0%Z) by (apply Zfloor_eq; lra).
  rewrite E. cbn [Z.even]. replace (x - 0) with x by ring.
  destruct (Rlt_dec x (1 / 2)); [reflexivity|].
  destruct (Rlt_dec (1 / 2) x); [lra|reflexivity].
Qed.

(** ** Warped grid *)

Section GridFacts.
Variables (warp_center : point) (warp_radius : Z).

Lemma takes_warp_branch_spec (x y : Z) :
  takes_warp_branch warp_center warp_radius x y = true
  <-> grid_r warp_center x y < IZR warp_radius
      /\ grid_r warp_center x y <> 0.
Proof.
  unfold takes_warp_branch.
  destruct (Rlt_dec _ _), (Req_dec_T _ _); cbn; split;
    try (intros H; discriminate H); try (intros [? ?]; contradiction);
    auto.
Qed.

Lemma grid_dot_warped (x y : Z) :
  takes_warp_branch warp_center warp_radius x y = true ->
  grid_dot warp_center warp_radius x y
  = draw_circle grid_surf (RGBA (50, 50, 50)%Z 150)
                (py_int (fst (warp_point warp_center x y)),
                 py_int (snd (warp_point warp_center x y))) 2.
Proof.
  intros H. unfold grid_dot. rewrite H.
  destruct (warp_point warp_center x y). reflexivity.
Qed.

Lemma grid_dot_raw (x y : Z) :
  takes_warp_branch warp_center warp_radius x y = false ->
  grid_dot warp_center warp_radius x y
  = draw_circle grid_surf (RGBA (50, 50, 50)%Z 150) (x, y) 1.
Proof. intros H. unfold grid_dot. rewrite H. reflexivity. Qed.
End GridFacts.

(** C5. A lattice point at distance [r] from the bob, [0 < r <
    warp_radius], takes the warp branch.  Its image is
    [bob + roundedR * (cos theta, sin theta)] with [theta = atan2(dy, dx)]
    and [roundedR = round(r / S) * S]; no multiple of [S] is closer to [r]
    than [roundedR]; the image lies at distance [roundedR] from the bob, in
    the direction of the lattice point.  The dot is drawn at the pixel of
    that image. *)
Theorem C5_grid_warp_remap (warp_center : point) (warp_radius x y : Z) :
  let dx := grid_dx warp_center x in
  let dy := grid_dy warp_center y in
  let r := hypot dx dy in
  0 < r < IZR warp_radius ->
  let theta := atan2 dy dx in
  let roundedR := (py_round (r / IZR GRID_SPACING) * GRID_SPACING)%Z in
  let p := warp_point warp_center x y in
  p = (fst warp_center + IZR roundedR * cos theta,
       snd warp_center + IZR roundedR * sin theta)
  /\ (forall k : Z,
         Rabs (IZR roundedR - r) <= Rabs (IZR (k * GRID_SPACING) - r))
  /\ hypot (fst p - fst warp_center) (snd p - snd warp_center) = IZR roundedR
  /\ fst p - fst warp_center = IZR roundedR * (dx / r)
  /\ snd p - snd warp_center = IZR roundedR * (dy / r)
  /\ grid_dot warp_center warp_radius x y
     = draw_circle grid_surf (RGBA (50, 50, 50)%Z 150)
                   (py_int (fst p), py_int (snd p)) 2.
Proof.
  intros dx dy r Hr theta roundedR p.
  assert (Hp : p = (fst warp_center + IZR roundedR * cos theta,
                    snd warp_center + IZR roundedR * sin theta))
    by reflexivity.
  assert (Hr0 : r <> 0) by lra.
  destruct (cos_sin_atan2 dy dx Hr0) as [Hcos Hsin].
  fold theta in Hcos, Hsin. fold r in Hcos, Hsin.
  assert (Hnn : 0 <= IZR roundedR).
  { apply IZR_le. unfold roundedR, GRID_SPACING.
    assert (0 <= py_round (r / 15))%Z; [|lia].
    apply py_round_nonneg. apply Rlt_le, Rdiv_lt_0_compat; lra. }
  split; [exact Hp|]. split; [|split; [|split; [|split]]].
  - intros k. unfold roundedR. rewrite !mult_IZR.
    pose proof (py_round_nearest (r / IZR GRID_SPACING) k) as Hk.
    unfold GRID_SPACING in *.
    replace (IZR (py_round (r / 15)) * 15 - r)
      with ((IZR (py_round (r / 15)) - r / 15) * 15) by field.
    replace (IZR k * 15 - r) with ((IZR k - r / 15) * 15) by field.
    rewrite !Rabs_mult, (Rabs_pos_eq 15) by lra. nra.
  - rewrite Hp. cbn [fst snd]. unfold hypot.
    replace (_ + _)
      with (IZR roundedR * IZR roundedR * ((sin theta)² + (cos theta)²))
      by (unfold Rsqr; ring).
    rewrite sin2_cos2, Rmult_1_r. apply sqrt_square. exact Hnn.
  - rewrite Hp. cbn [fst snd]. rewrite Hcos. ring.
  - rewrite Hp. cbn [fst snd]. rewrite Hsin. ring.
  - apply grid_dot_warped. apply takes_warp_branch_spec.
    unfold grid_r. fold dx dy r. split; [lra|exact Hr0].
Qed.

Lemma grid_r_unit : grid_r (1, 0) 0 0 = 1.
Proof.
  unfold grid_r, grid_dx, grid_dy, hypot. cbn [fst snd].
  replace ((0 - 1) * (0 - 1) + (0 - 0) * (0 - 0)) with 1 by ring.
  apply sqrt_1.
Qed.

Lemma C5_grid_warp_remap_witness :
  0 < grid_r (1, 0) 0 0 < IZR GRID_WARP_RADIUS
  /\ hypot (fst (warp_point (1, 0) 0 0) - 1) (snd (warp_point (1, 0) 0 0) - 0)
     = IZR (py_round (grid_r (1, 0) 0 0 / IZR GRID_SPACING) * GRID_SPACING).
Proof.
  assert (H : 0 < grid_r (1, 0) 0 0 < IZR GRID_WARP_RADIUS).
  { rewrite grid_r_unit. unfold GRID_WARP_RADIUS. lra. }
  split; [exact H|].
  exact (proj1 (proj2 (proj2 (C5_grid_warp_remap (1, 0) GRID_WARP_RADIUS 0 0 H)))).
Defined.

(** C8. A lattice point exactly at the bob ([r = 0]) does not take the
    warp branch and is drawn at its own coordinate with radius 1; the warp
    branch, and so the call of [atan2], is taken only where [r <> 0]. *)
Theorem C8_bob_cell_unwarped (warp_center : point) (warp_radius x y : Z) :
  grid_r warp_center x y = 0 ->
  warp_center = (IZR x, IZR y)
  /\ takes_warp_branch warp_center warp_radius x y = false
  /\ grid_dot warp_center warp_radius x y
     = draw_circle grid_surf (RGBA (50, 50, 50)%Z 150) (x, y) 1
  /\ (forall x' y',
         takes_warp_branch warp_center warp_radius x' y' = true ->
         grid_r warp_center x' y' <> 0).
Proof.
  intros Hr.
  assert (Hb : takes_warp_branch warp_center warp_radius x y = false).
  { destruct (takes_warp_branch warp_center warp_radius x y) eqn:E;
      [|reflexivity].
    apply takes_warp_branch_spec in E. destruct E as [_ E]. contradiction. }
  split; [|split; [exact Hb|split]].
  - apply hypot_eq_0 in Hr. unfold grid_dx, grid_dy in Hr.
    destruct warp_center as [bx by_]. cbn [fst snd] in Hr.
    f_equal; lra.
  - apply grid_dot_raw. exact Hb.
  - intros x' y' H. apply takes_warp_branch_spec in H. apply H.
Qed.

Lemma C8_bob_cell_unwarped_witness :
  grid_r (0, 0) 0 0 = 0
  /\ grid_dot (0, 0) GRID_WARP_RADIUS 0 0
     = draw_circle grid_surf (RGBA (50, 50, 50)%Z 150) (0, 0)%Z 1.
Proof.
  assert (H : grid_r (0, 0) 0 0 = 0).
  { unfold grid_r, grid_dx, grid_dy. cbn [fst snd].
    replace (0 - 0) with 0 by ring. apply hypot_0_0. }
  split; [exact H|].
  exact (proj1 (proj2 (proj2 (C8_bob_cell_unwarped (0, 0) GRID_WARP_RADIUS 0 0 H)))).
Defined.

(** C10. For a lattice point at distance [r] from the bob with
    [0 < r < GRID_SPACING / 2], the quantized radius
    [round(r / GRID_SPACING) * GRID_SPACING] is 0, the warped coordinate is
    the bob position itself, and the dot of radius 2 is drawn at the pixel
    of the bob. *)
Theorem C10_near_points_collapse (warp_center : point) (x y : Z) :
  let r := grid_r warp_center x y in
  0 < r < IZR GRID_SPACING / 2 ->
  (py_round (r / IZR GRID_SPACING) * GRID_SPACING)%Z = 0%Z
  /\ warp_point warp_center x y = warp_center
  /\ grid_dot warp_center GRID_WARP_RADIUS x y
     = draw_circle grid_surf (RGBA (50, 50, 50)%Z 150)
                   (py_int (fst warp_center), py_int (snd warp_center)) 2.
Proof.
  intros r Hr. unfold GRID_SPACING in *.
  assert (E : py_round (r / 15) = 0%Z) by (apply py_round_small; lra).
  assert (Hp : warp_point warp_center x y = warp_center).
  { unfold warp_point, warp_new_r, GRID_SPACING. fold r. rewrite E.
    destruct warp_center as [bx by_]. cbn [fst snd Z.mul]. f_equal; ring. }
  split; [rewrite E; reflexivity|]. split; [exact Hp|].
  rewrite grid_dot_warped, Hp; [reflexivity|].
  apply takes_warp_branch_spec. fold r. unfold GRID_WARP_RADIUS. lra.
Qed.

Lemma C10_near_points_collapse_witness :
  0 < grid_r (1, 0) 0 0 < IZR GRID_SPACING / 2
  /\ warp_point (1, 0) 0 0 = (1, 0).
Proof.
  assert (H : 0 < grid_r (1, 0) 0 0 < IZR GRID_SPACING / 2).
  { rewrite grid_r_unit. unfold GRID_SPACING. lra. }
  split; [exact H|].
  exact (proj1 (proj2 (C10_near_points_collapse (1, 0) 0 0 H))).
Defined.

(** ** Time limit *)

Lemma over_time_limit_spec (start_ticks now : Z) :
  over_time_limit start_ticks now = true
  <-> (1000 * TIME_LIMIT < now - start_ticks)%Z.
Proof.
  unfold over_time_limit, elapsed, TIME_LIMIT.
  destruct (Qlt_le_dec _ _) as [H|H];
    unfold Qlt, Qle in H; cbn in H; split; intros H'; try lia;
    try reflexivity; discriminate H'.
Qed.

Lemma elapsed_reached_spec (start_ticks now : Z) :
  (inject_Z TIME_LIMIT <= elapsed start_ticks now)%Q
  <-> (1000 * TIME_LIMIT <= now - start_ticks)%Z.
Proof.
  unfold elapsed, TIME_LIMIT, Qle. cbn. split; intros H; lia.
Qed.

Lemma main_loop_stopped fuel start_ticks inputs k st :
  running st = false ->
  main_loop fuel start_ticks inputs k st = Some (k, st).
Proof. intros H. destruct fuel; cbn [main_loop]; rewrite H; reflexivity. Qed.

Lemma main_loop_step fuel start_ticks inputs k st :
  running st = true ->
  main_loop (S fuel) start_ticks inputs k st
  = main_loop fuel start_ticks inputs (S k)
              (fst (loop_body start_ticks (inputs k) st)).
Proof. intros H. cbn [main_loop]. rewrite H. reflexivity. Qed.

(** The loop leaves the state that [after_ticks] computes for the number
    of iterations it made. *)
Lemma main_loop_after_ticks fuel start_ticks inputs st0 k n st' :
  main_loop fuel start_ticks inputs k (after_ticks start_ticks inputs k st0)
  = Some (n, st') ->
  (k <= n)%nat /\ st' = after_ticks start_ticks inputs n st0.
Proof.
  revert k. induction fuel as [|fuel IH]; intros k; cbn [main_loop];
    destruct (running (after_ticks start_ticks inputs k st0)) eqn:R;
    intros H; try discriminate H;
    try (injection H as <- <-; split; [lia|reflexivity]).
  apply (IH (S k)) in H. split; [lia|apply H].
Qed.

Section TimeLimit.
Variables (start_ticks : Z) (inputs : nat -> tick_input).

(** The clock reading of each check is later than that of the check of
    the iteration before: ticks take time. *)
Hypothesis clock_advances :
  forall i, (now_ticks (inputs i) < now_ticks (inputs (S i)))%Z.

Lemma main_loop_leaves_after (j k0 : nat) (st : state) :
  running st = true ->
  (1000 * TIME_LIMIT <= now_ticks (inputs (k0 + j)) - start_ticks)%Z ->
  exists n st',
    main_loop (S (S j)) start_ticks inputs k0 st = Some (n, st')
    /\ (k0 < n <= k0 + j + 2)%nat /\ running st' = false.
Proof.
  revert k0 st. induction j as [|j IH]; intros k0 st Hrun Hk.
  - rewrite Nat.add_0_r in Hk. rewrite main_loop_step by exact Hrun.
    set (st1 := fst (loop_body start_ticks (inputs k0) st)).
    destruct (running st1) eqn:R1.
    + rewrite main_loop_step by exact R1.
      set (st2 := fst (loop_body start_ticks (inputs (S k0)) st1)).
      assert (R2 : running st2 = false).
      { unfold st2. rewrite loop_body_running.
        assert (O : over_time_limit start_ticks (now_ticks (inputs (S k0)))
                    = true).
        { apply over_time_limit_spec. pose proof (clock_advances k0). lia. }
        rewrite O. reflexivity. }
      exists (S (S k0)), st2. rewrite main_loop_stopped by exact R2.
      repeat split; [lia|lia|exact R2].
    + exists (S k0), st1. rewrite main_loop_stopped by exact R1.
      repeat split; [lia|lia|exact R1].
  - rewrite main_loop_step by exact Hrun.
    set (st1 := fst (loop_body start_ticks (inputs k0) st)).
    destruct (running st1) eqn:R1.
    + replace (k0 + S j)%nat with (S k0 + j)%nat in Hk by lia.
      destruct (IH (S k0) st1 R1 Hk) as [n [st' [E [Hn R']]]].
      exists n, st'. repeat split; [exact E|lia|lia|exact R'].
    + exists (S k0), st1. rewrite main_loop_stopped by exact R1.
      repeat split; [lia|lia|exact R1].
Qed.

(** Without a QUIT event the loop is still running after every
    iteration whose check reads an elapsed time of at most the limit. *)
Lemma main_loop_runs_until (k : nat) (st : state) :
  running st = true ->
  (forall i, (i < k)%nat -> quit_event (inputs i) = false) ->
  (forall i, (i < k)%nat ->
             (now_ticks (inputs i) - start_ticks <= 1000 * TIME_LIMIT)%Z) ->
  running (after_ticks start_ticks inputs k st) = true.
Proof.
  intros Hrun Hq Hn. induction k as [|k IH]; [exact Hrun|].
  cbn [after_ticks]. rewrite loop_body_running, Hq by lia.
  rewrite IH; [|intros; apply Hq; lia|intros; apply Hn; lia].
  destruct (over_time_limit start_ticks (now_ticks (inputs k))) eqn:O;
    [|reflexivity].
  apply over_time_limit_spec in O. specialize (Hn k). lia.
Qed.
End TimeLimit.

(** C6. Let the clock advance from each tick to the next, and let the
    elapsed time read at the check of iteration [k] (counted from 0) be at
    least the limit.  Then the loop ends, with [running] false, after
    iteration [k] or iteration [k + 1] at the latest, whether or not a QUIT
    event is ever delivered. *)
Theorem C6_time_limit_terminates start_ticks inputs st (k : nat) :
  running st = true ->
  (forall i, (now_ticks (inputs i) < now_ticks (inputs (S i)))%Z) ->
  (inject_Z TIME_LIMIT <= elapsed start_ticks (now_ticks (inputs k)))%Q ->
  exists n st',
    main_loop (S (S k)) start_ticks inputs 0 st = Some (n, st')
    /\ (n <= k + 2)%nat
    /\ running st' = false.
Proof.
  intros Hrun Hclock Hk. apply elapsed_reached_spec in Hk.
  destruct (main_loop_leaves_after start_ticks inputs Hclock k 0 st Hrun Hk)
    as [n [st' [E [Hn R]]]].
  exists n, st'. repeat split; [exact E|lia|exact R].
Qed.

Lemma C6_time_limit_terminates_witness :
  running (initial_state []) = true
  /\ (forall i, (now_ticks (slow_inputs i) < now_ticks (slow_inputs (S i)))%Z)
  /\ (inject_Z TIME_LIMIT <= elapsed 0 (now_ticks (slow_inputs 1)))%Q
  /\ exists n st',
      main_loop 3 0 slow_inputs 0 (initial_state []) = Some (n, st')
      /\ (n <= 3)%nat /\ running st' = false.
Proof.
  assert (H1 : running (initial_state []) = true) by reflexivity.
  assert (H2 : forall i, (now_ticks (slow_inputs i)
                          < now_ticks (slow_inputs (S i)))%Z).
  { intros i. unfold slow_inputs. cbn [now_ticks]. lia. }
  assert (H3 : (inject_Z TIME_LIMIT <= elapsed 0 (now_ticks (slow_inputs 1)))%Q).
  { apply elapsed_reached_spec. unfold slow_inputs, TIME_LIMIT.
    cbn [now_ticks]. lia. }
  repeat split; [exact H2|exact H3|].
  exact (C6_time_limit_terminates 0 slow_inputs (initial_state []) 1 H1 H2 H3).
Defined.

(** The check is strict: with the readings above the loop is still running
    after the iteration that reads exactly 10 s, and makes a third one. *)
Lemma time_limit_check_is_strict :
  running (after_ticks 0 slow_inputs 2 (initial_state [])) = true
  /\ running (after_ticks 0 slow_inputs 3 (initial_state [])) = false.
Proof.
  split.
  - apply main_loop_runs_until; [reflexivity|reflexivity|].
    intros i Hi. unfold slow_inputs, TIME_LIMIT. cbn [now_ticks]. lia.
  - cbn [after_ticks]. rewrite loop_body_running.
    assert (O : over_time_limit 0 (now_ticks (slow_inputs 2)) = true).
    { apply over_time_limit_spec. unfold slow_inputs, TIME_LIMIT.
      cbn [now_ticks]. lia. }
    rewrite O. reflexivity.
Qed.

(** * Further properties of the drawing routines and of the loop *)

(** ** Colour interpolation *)

(** [int] of a quotient that lies between two integers lies between
    them. *)
Lemma Qint_between (q : Q) (lo hi : Z) :
  (inject_Z lo <= q <= inject_Z hi)%Q -> (lo <= Qint q <= hi)%Z.
Proof.
  destruct q as [n d]. unfold Qle, Qint. cbn. intros [Hlo Hhi]. split.
  - apply Z.quot_le_lower_bound; lia.
  - apply Z.quot_le_upper_bound; lia.
Qed.

Lemma Qint_exact (q : Q) (z : Z) : (q == inject_Z z)%Q -> Qint q = z.
Proof.
  intros H. assert (z <= Qint q <= z)%Z; [|lia].
  apply Qint_between. rewrite H. split; apply Qle_refl.
Qed.

Lemma blend_between (a b : Z) (t : Q) :
  (0 <= t <= 1)%Q ->
  (inject_Z (Z.min a b) <= inject_Z a * (1 - t) + inject_Z b * t
   <= inject_Z (Z.max a b))%Q.
Proof.
  intros Ht.
  assert (H1 : (inject_Z (Z.min a b) <= inject_Z a)%Q)
    by (rewrite <- Zle_Qle; lia).
  assert (H2 : (inject_Z (Z.min a b) <= inject_Z b)%Q)
    by (rewrite <- Zle_Qle; lia).
  assert (H3 : (inject_Z a <= inject_Z (Z.max a b))%Q)
    by (rewrite <- Zle_Qle; lia).
  assert (H4 : (inject_Z b <= inject_Z (Z.max a b))%Q)
    by (rewrite <- Zle_Qle; lia).
  generalize dependent (inject_Z (Z.min a b)).
  generalize dependent (inject_Z (Z.max a b)).
  generalize (inject_Z a) (inject_Z b). intros A B hi HA HB lo HA' HB'.
  split; Lqa.nra.
Qed.

(** X1. At blend factor 0 the interpolation returns the first colour and
    at blend factor 1 the second, whatever fraction represents 0 or 1. *)
Theorem interpolate_color_endpoints (c1 c2 : rgb) (d : positive) :
  interpolate_color c1 c2 (0 # d) = c1
  /\ interpolate_color c1 c2 (Zpos d # d) = c2.
Proof.
  assert (E0 : (0 # d == 0)%Q) by reflexivity.
  assert (E1 : (Zpos d # d == 1)%Q) by (unfold Qeq; cbn; lia).
  destruct c1 as [[r1 g1] b1], c2 as [[r2 g2] b2].
  unfold interpolate_color. split.
  - f_equal; [f_equal|]; apply Qint_exact; rewrite E0; ring.
  - f_equal; [f_equal|]; apply Qint_exact; rewrite E1; ring.
Qed.

(** X2. For a blend factor between 0 and 1 every channel of the result
    lies between the corresponding channels of the two colours; so two
    colours with channels in 0..255 blend to a colour with channels in
    0..255. *)
Theorem interpolate_color_in_range (c1 c2 : rgb) (t : Q) :
  (0 <= t <= 1)%Q ->
  let '(r1, g1, b1) := c1 in
  let '(r2, g2, b2) := c2 in
  let '(r, g, b) := interpolate_color c1 c2 t in
  (Z.min r1 r2 <= r <= Z.max r1 r2)%Z
  /\ (Z.min g1 g2 <= g <= Z.max g1 g2)%Z
  /\ (Z.min b1 b2 <= b <= Z.max b1 b2)%Z.
Proof.
  intros Ht. destruct c1 as [[r1 g1] b1], c2 as [[r2 g2] b2].
  unfold interpolate_color.
  split; [|split]; apply Qint_between, blend_between; exact Ht.
Qed.

Lemma interpolate_color_in_range_witness :
  (0 <= 6 # 7 <= 1)%Q
  /\ let '(r, g, b) := interpolate_color PURPLE CYAN (6 # 7) in
     (0 <= r <= 128)%Z /\ (0 <= g <= 255)%Z /\ (128 <= b <= 255)%Z.
Proof.
  assert (H : (0 <= 6 # 7 <= 1)%Q)
    by (split; unfold Qle; cbn; lia).
  split; [exact H|].
  exact (interpolate_color_in_range PURPLE CYAN (6 # 7) H).
Defined.

(** ** Trail opacity *)

Lemma trail_alpha_div (n i : nat) :
  (1 <= n)%nat ->
  trail_alpha n i = (255 * Z.of_nat (i + 1) / Z.of_nat n)%Z.
Proof.
  intros Hn. unfold trail_alpha, Qint.
  destruct (Z.of_nat n) as [|p|p] eqn:E; try lia.
  cbn [Qdiv Qinv inject_Z Qnum Qden Qmult]. rewrite Z.mul_1_r, Pos.mul_1_l.
  apply Z.quot_div_nonneg; lia.
Qed.

(** X3. In a trail of [n >= 2] points the alpha of a segment is at least
    0 and below 255, so no segment is fully opaque, and it does not
    decrease from an older segment to a newer one. *)
Theorem trail_alpha_bounds (n i j : nat) :
  (2 <= n)%nat -> (i <= j < n - 1)%nat ->
  (0 <= trail_alpha n i <= trail_alpha n j)%Z /\ (trail_alpha n j < 255)%Z.
Proof.
  intros Hn Hij. rewrite !trail_alpha_div by lia. split; [split|].
  - apply Z.div_pos; lia.
  - apply Z.div_le_mono; lia.
  - apply Z.div_lt_upper_bound; lia.
Qed.

Lemma trail_alpha_bounds_witness :
  (2 <= 8)%nat /\ (0 <= 6 < 8 - 1)%nat
  /\ (0 <= trail_alpha 8 0 <= trail_alpha 8 6)%Z /\ (trail_alpha 8 6 < 255)%Z.
Proof.
  assert (H1 : (2 <= 8)%nat) by lia.
  assert (H2 : (0 <= 6 < 8 - 1)%nat) by (cbn; lia).
  split; [exact H1|]. split; [exact H2|].
  exact (trail_alpha_bounds 8 0 6 H1 H2).
Defined.

(** ** Trail history from the first tick on *)

Lemma initial_trail_window start_ticks inputs particles (t : nat) :
  trail (after_ticks start_ticks inputs t (initial_state particles))
  = map (bob_at start_ticks inputs (initial_state particles))
        (seq (S (t - TRAIL_LENGTH)) (Nat.min t TRAIL_LENGTH)).
Proof.
  rewrite after_ticks_trail. cbn [trail initial_state].
  rewrite trail_window, length_map, length_seq, skipn_map, skipn_seq.
  f_equal. f_equal; lia.
Qed.

(** X4. From the initial state the trail after [t] ticks holds
    [min t TRAIL_LENGTH] points, never more than the capacity: all the bob
    positions so far while [t <= TRAIL_LENGTH], oldest first, and the last
    [TRAIL_LENGTH] of them afterwards. *)
Theorem trail_lifecycle start_ticks inputs particles (t : nat) :
  let st0 := initial_state particles in
  let tr := trail (after_ticks start_ticks inputs t st0) in
  length tr = Nat.min t TRAIL_LENGTH
  /\ (length tr <= TRAIL_LENGTH)%nat
  /\ tr = map (bob_at start_ticks inputs st0)
              (seq (S (t - TRAIL_LENGTH)) (Nat.min t TRAIL_LENGTH)).
Proof.
  intros st0 tr. unfold tr, st0. rewrite initial_trail_window.
  rewrite length_map, length_seq. repeat split. lia.
Qed.

Lemma draw_neon_trail_length s pts :
  length (draw_neon_trail s pts)
  = if (length pts <? 2)%nat then O else S (length pts).
Proof.
  unfold draw_neon_trail, trail_segments.
  destruct (Nat.ltb_spec (length pts) 2) as [H|H]; [reflexivity|].
  cbn [length]. rewrite length_app, length_map, length_seq. cbn [length].
  lia.
Qed.

(** X5. The trail routine makes no call at all for a trail of fewer than
    two points.  In the main loop this is the first tick only: the frame of
    tick [t >= 2] holds a fresh surface, [min t TRAIL_LENGTH - 1] line
    segments and one blit. *)
Theorem neon_trail_startup start_ticks inputs particles (t : nat) :
  let tr := trail (after_ticks start_ticks inputs t (initial_state particles)) in
  (draw_neon_trail screen tr = [] <-> (t <= 1)%nat)
  /\ length (draw_neon_trail screen tr)
     = if (t <=? 1)%nat then O else (Nat.min t TRAIL_LENGTH + 1)%nat.
Proof.
  intros tr.
  assert (Hlen : length tr = Nat.min t TRAIL_LENGTH).
  { unfold tr. rewrite initial_trail_window, length_map, length_seq.
    reflexivity. }
  assert (Hl : length (draw_neon_trail screen tr)
               = if (t <=? 1)%nat then O else (Nat.min t TRAIL_LENGTH + 1)%nat).
  { rewrite draw_neon_trail_length, Hlen. unfold TRAIL_LENGTH.
    destruct (Nat.ltb_spec (Nat.min t 8) 2), (Nat.leb_spec t 1); lia. }
  split; [|exact Hl]. split.
  - intros E. rewrite E in Hl. cbn [length] in Hl.
    destruct (Nat.leb_spec t 1); [assumption|lia].
  - intros Ht. apply length_zero_iff_nil. rewrite Hl.
    destruct (Nat.leb_spec t 1); [reflexivity|lia].
Qed.

(** ** Pendulum *)

(** X6. The integrator is odd: mirroring the angle and the velocity
    mirrors the three values it returns.  In particular a pendulum hanging
    at rest stays at rest. *)
Theorem integrator_step_odd (gravity length damping ang vel : R) :
  (let '(a, v, acc) := integrator_step gravity length damping ang vel in
   integrator_step gravity length damping (- ang) (- vel) = (- a, - v, - acc))
  /\ integrator_step gravity length damping 0 0 = (0, 0, 0).
Proof.
  unfold integrator_step, velocity_update, acceleration_of. split.
  - rewrite sin_neg. f_equal; [f_equal|]; ring.
  - rewrite sin_0. f_equal; [f_equal|]; ring.
Qed.

Lemma Rabs_le_bounds (a b : R) : Rabs a <= b -> - b <= a <= b.
Proof. unfold Rabs. destruct (Rcase_abs a); lra. Qed.

Lemma velocity_step_bound (ang vel : R) :
  Rabs vel <= 0.08 ->
  Rabs ((vel + (- GRAVITY / IZR PENDULUM_LENGTH) * sin ang) * DAMPING) <= 0.08.
Proof.
  intros Hv. unfold GRAVITY, PENDULUM_LENGTH, DAMPING.
  pose proof (SIN_bound ang) as [Hs1 Hs2].
  apply Rabs_le_bounds in Hv. apply Rabs_le. lra.
Qed.

(** X7. The magnitude of the angular velocity never exceeds 0.08 rad per
    tick once it is at most 0.08, so the linear speed the beam gate sees
    never exceeds 12 pixels per tick. *)
Theorem angular_velocity_bounded start_ticks inputs st (t : nat) :
  Rabs (angular_velocity st) <= 0.08 ->
  let st' := after_ticks start_ticks inputs t st in
  Rabs (angular_velocity st') <= 0.08
  /\ Rabs (angular_velocity st') * IZR PENDULUM_LENGTH <= 12.
Proof.
  intros H0. cbn zeta.
  assert (H : Rabs (angular_velocity (after_ticks start_ticks inputs t st))
              <= 0.08).
  { induction t as [|t IH]; [exact H0|].
    cbn [after_ticks]. rewrite loop_body_velocity.
    apply velocity_step_bound. exact IH. }
  split; [exact H|]. unfold PENDULUM_LENGTH. lra.
Qed.

Lemma angular_velocity_bounded_witness :
  Rabs (angular_velocity (initial_state [])) <= 0.08
  /\ Rabs (angular_velocity (after_ticks 0 idle_inputs 60 (initial_state [])))
     <= 0.08.
Proof.
  assert (H : Rabs (angular_velocity (initial_state [])) <= 0.08).
  { cbn [angular_velocity initial_state]. rewrite Rabs_R0. lra. }
  split; [exact H|].
  exact (proj1 (angular_velocity_bounded 0 idle_inputs (initial_state []) 60 H)).
Defined.

(** X8. The bob is always at distance [PENDULUM_LENGTH] from the anchor,
    so the rod has constant length, and its coordinates stay within
    250..550 horizontally and -50..250 vertically. *)
Theorem bob_on_circle (ang : R) :
  let '(bob_x, bob_y) := bob_of ang in
  hypot (bob_x - IZR (fst PENDULUM_ANCHOR)) (bob_y - IZR (snd PENDULUM_ANCHOR))
  = IZR PENDULUM_LENGTH
  /\ 250 <= bob_x <= 550 /\ -50 <= bob_y <= 250.
Proof.
  unfold bob_of, PENDULUM_ANCHOR, PENDULUM_LENGTH. cbn [fst snd].
  pose proof (SIN_bound ang) as Hs. pose proof (COS_bound ang) as Hc.
  split; [|lra]. unfold hypot.
  replace (_ + _) with (150 * 150 * ((sin ang)² + (cos ang)²))
    by (unfold Rsqr; ring).
  rewrite sin2_cos2, Rmult_1_r. apply sqrt_square. lra.
Qed.

(** ** Hexagon *)

Lemma draw_hexagon_polygon (s : surface) (center : point) (ang : R)
      (c : rgb) :
  draw_hexagon s center ang c
  = [draw_polygon s (RGB c) (map (hexagon_vertex center ang) (seq 0 6))].
Proof.
  unfold draw_hexagon, hexagon_points. rewrite map_map. do 2 f_equal.
  apply map_ext. intros i. unfold hexagon_vertex.
  rewrite cos_plus, sin_plus. f_equal; ring.
Qed.

Lemma nth_hexagon_vertex (center : point) (ang : R) (i : nat) :
  (i < 6)%nat ->
  nth i (map (hexagon_vertex center ang) (seq 0 6)) (0, 0)
  = hexagon_vertex center ang i.
Proof.
  intros Hi.
  rewrite (nth_indep _ (0, 0) (hexagon_vertex center ang 0))
    by (rewrite length_map, length_seq; exact Hi).
  rewrite map_nth, seq_nth by exact Hi. reflexivity.
Qed.

(** X9. The polygon of [draw_hexagon] has six vertices; vertex [i] lies
    at distance [HEXAGON_SIDE] from the centre, in direction
    [60 * i] degrees plus the rotation angle. *)
Theorem draw_hexagon_vertices (s : surface) (center : point) (ang : R)
        (c : rgb) :
  exists pts,
    draw_hexagon s center ang c = [draw_polygon s (RGB c) pts]
    /\ length pts = 6%nat
    /\ forall i, (i < 6)%nat ->
         let theta := radians (60 * INR i) + ang in
         nth i pts (0, 0)
         = (fst center + IZR HEXAGON_SIDE * cos theta,
            snd center + IZR HEXAGON_SIDE * sin theta)
         /\ hypot (fst (nth i pts (0, 0)) - fst center)
                  (snd (nth i pts (0, 0)) - snd center)
            = IZR HEXAGON_SIDE.
Proof.
  exists (map (hexagon_vertex center ang) (seq 0 6)).
  split; [apply draw_hexagon_polygon|]. split; [reflexivity|].
  intros i Hi theta. rewrite nth_hexagon_vertex by exact Hi.
  split; [reflexivity|].
  unfold hexagon_vertex, hypot, HEXAGON_SIDE. fold theta. cbn [fst snd].
  replace (_ + _) with (20 * 20 * ((sin theta)² + (cos theta)²))
    by (unfold Rsqr; ring).
  rewrite sin2_cos2, Rmult_1_r. apply sqrt_square. lra.
Qed.

(** Two points at the same distance [d] from a centre, in directions that
    differ by an angle of cosine 1/2, are at distance [d] from each
    other. *)
Lemma chord_60 (d a b dx dy : R) :
  0 <= d -> cos (b - a) = 1 / 2 ->
  dx = d * cos b - d * cos a -> dy = d * sin b - d * sin a ->
  hypot dx dy = d.
Proof.
  intros Hd Hc -> ->. unfold hypot. rewrite cos_minus in Hc.
  replace (_ + _)
    with (d * d * ((sin a)² + (cos a)² + ((sin b)² + (cos b)²)
                   - 2 * (cos b * cos a + sin b * sin a)))
    by (unfold Rsqr; ring).
  rewrite !sin2_cos2, Hc.
  replace (d * d * (1 + 1 - 2 * (1 / 2))) with (d * d) by field.
  apply sqrt_square. exact Hd.
Qed.

Lemma cos_radians_60 : cos (radians 60) = 1 / 2.
Proof.
  unfold radians. replace (60 * PI / 180) with (PI / 3) by field.
  apply cos_PI3.
Qed.

Lemma cos_radians_300 : cos (radians 300) = 1 / 2.
Proof.
  unfold radians. replace (300 * PI / 180) with (2 * PI - PI / 3) by field.
  rewrite cos_minus, cos_2PI, sin_2PI, cos_PI3. field.
Qed.

Lemma hexagon_vertex_chord (center : point) (ang : R) (i : nat) :
  (i < 6)%nat ->
  let '(x, y) := hexagon_vertex center ang i in
  let '(x', y') := hexagon_vertex center ang (S i mod 6) in
  hypot (x' - x) (y' - y) = IZR HEXAGON_SIDE.
Proof.
  intros Hi. unfold hexagon_vertex, HEXAGON_SIDE.
  assert (H20 : 0 <= 20) by lra.
  destruct (Nat.eq_dec i 5) as [->|Hne].
  - cbn [Nat.modulo Nat.divmod fst snd Nat.sub].
    apply (chord_60 20 (radians (60 * INR 5) + ang)
                    (radians (60 * INR 0) + ang)); [exact H20| |ring|ring].
    replace (radians (60 * INR 0) + ang - (radians (60 * INR 5) + ang))
      with (- radians 300) by (unfold radians; simpl INR; field).
    rewrite cos_neg. apply cos_radians_300.
  - rewrite Nat.mod_small by lia.
    apply (chord_60 20 (radians (60 * INR i) + ang)
                    (radians (60 * INR (S i)) + ang)); [exact H20| |ring|ring].
    replace (radians (60 * INR (S i)) + ang - (radians (60 * INR i) + ang))
      with (radians 60) by (rewrite S_INR; unfold radians; field).
    apply cos_radians_60.
Qed.

(** X10. The hexagon drawn is regular with side equal to its radius:
    each vertex of the polygon is at distance [HEXAGON_SIDE] from the next
    one, the last from the first, at every rotation angle. *)
Theorem hexagon_sides (s : surface) (center : point) (ang : R) (c : rgb)
        (i : nat) :
  (i < 6)%nat ->
  exists pts,
    draw_hexagon s center ang c = [draw_polygon s (RGB c) pts]
    /\ let '(x, y) := nth i pts (0, 0) in
       let '(x', y') := nth (S i mod 6) pts (0, 0) in
       hypot (x' - x) (y' - y) = IZR HEXAGON_SIDE.
Proof.
  intros Hi. exists (map (hexagon_vertex center ang) (seq 0 6)).
  split; [apply draw_hexagon_polygon|].
  rewrite !nth_hexagon_vertex
    by (try exact Hi; apply Nat.mod_upper_bound; discriminate).
  apply hexagon_vertex_chord. exact Hi.
Qed.

Lemma hexagon_sides_witness :
  (5 < 6)%nat
  /\ exists pts,
      draw_hexagon screen (0, 0) 0 CYAN = [draw_polygon screen (RGB CYAN) pts]
      /\ let '(x, y) := nth 5 pts (0, 0) in
         let '(x', y') := nth 0 pts (0, 0) in
         hypot (x' - x) (y' - y) = 20.
Proof.
  assert (H : (5 < 6)%nat) by lia.
  split; [exact H|]. exact (hexagon_sides screen (0, 0) 0 CYAN 5 H).
Defined.

(** ** Light beams *)

(** X11. Each beam is a triangle with its apex at the centre and its two
    other corners at distance [length] from it; the angle between the two
    legs is the spread of 30 degrees, and the legs are symmetric about the
    direction [i * (2 pi / count)].  A fan is [count] such triangles between
    one fresh surface and one blit. *)
Theorem beam_triangle (center : point) (count : nat) (length : Z) (i : nat) :
  (0 <= length)%Z ->
  exists p2 p3 : point,
    beam center count length i
    = draw_polygon beams_surf (RGBA (255, 255, 255)%Z 80) [center; p2; p3]
    /\ hypot (fst p2 - fst center) (snd p2 - snd center) = IZR length
    /\ hypot (fst p3 - fst center) (snd p3 - snd center) = IZR length
    /\ (fst p2 - fst center) * (fst p3 - fst center)
       + (snd p2 - snd center) * (snd p3 - snd center)
       = IZR length * IZR length * cos LIGHT_BEAM_SPREAD
    /\ (let central_angle := INR i * (2 * PI / INR count) in
        (fst p2 + fst p3) / 2 - fst center
        = IZR length * cos (LIGHT_BEAM_SPREAD / 2) * cos central_angle
        /\ (snd p2 + snd p3) / 2 - snd center
           = IZR length * cos (LIGHT_BEAM_SPREAD / 2) * sin central_angle)
    /\ List.length (draw_light_beams screen center count length)
       = (count + 2)%nat.
Proof.
  intros Hl. apply IZR_le in Hl.
  set (ca := INR i * (2 * PI / INR count)).
  set (h := LIGHT_BEAM_SPREAD / 2).
  exists (fst center + IZR length * cos (ca - h),
          snd center + IZR length * sin (ca - h)),
         (fst center + IZR length * cos (ca + h),
          snd center + IZR length * sin (ca + h)).
  cbn [fst snd].
  assert (Hh : forall a, hypot (fst center + IZR length * cos a - fst center)
                               (snd center + IZR length * sin a - snd center)
                         = IZR length).
  { intros a. unfold hypot.
    replace (_ + _) with (IZR length * IZR length * ((sin a)² + (cos a)²))
      by (unfold Rsqr; ring).
    rewrite sin2_cos2, Rmult_1_r. apply sqrt_square. exact Hl. }
  split; [reflexivity|]. split; [apply Hh|]. split; [apply Hh|].
  split; [|split; [split|]].
  - replace LIGHT_BEAM_SPREAD with ((ca + h) - (ca - h))
      by (unfold h; field).
    rewrite (cos_minus (ca + h)). ring.
  - rewrite cos_minus, cos_plus. fold ca. field.
  - rewrite sin_minus, sin_plus. fold ca. field.
  - unfold draw_light_beams. cbn [List.length].
    rewrite length_app, length_map, length_seq. cbn [List.length]. lia.
Qed.

Lemma beam_triangle_witness :
  (0 <= BEAM_LENGTH)%Z
  /\ exists p2 p3 : point,
      beam (0, 0) BEAM_COUNT BEAM_LENGTH 0
      = draw_polygon beams_surf (RGBA (255, 255, 255)%Z 80) [(0, 0); p2; p3]
      /\ hypot (fst p2 - 0) (snd p2 - 0) = IZR BEAM_LENGTH.
Proof.
  assert (H : (0 <= BEAM_LENGTH)%Z) by (unfold BEAM_LENGTH; lia).
  split; [exact H|].
  destruct (beam_triangle (0, 0) BEAM_COUNT BEAM_LENGTH 0 H)
    as [p2 [p3 [E [H2 _]]]].
  exists p2, p3. split; [exact E|exact H2].
Defined.

(** ** Warped grid: how many dots, and how far they move *)

Lemma flat_map_length_const {A B : Type} (f : A -> list B) (k : nat)
      (l : list A) :
  (forall x, length (f x) = k) -> length (flat_map f l) = (length l * k)%nat.
Proof.
  intros H. induction l as [|a l IH]; [reflexivity|].
  cbn [flat_map length]. rewrite length_app, H, IH. lia.
Qed.

Lemma in_py_range_0 (stop x : Z) :
  In x (py_range 0 stop GRID_SPACING) ->
  (0 <= x < stop)%Z /\ (GRID_SPACING | x)%Z.
Proof.
  unfold py_range, GRID_SPACING. intros H. apply in_map_iff in H.
  destruct H as [k [<- Hk]]. apply in_seq in Hk.
  assert (Hs : (0 < stop)%Z).
  { destruct (Z_lt_le_dec 0 stop) as [Hp|Hn]; [exact Hp|].
    assert (E : ((stop - 0 + 15 - 1) / 15 < 1)%Z)
      by (apply Z.div_lt_upper_bound; lia).
    lia. }
  assert (Hq : (0 <= (stop - 0 + 15 - 1) / 15)%Z)
    by (apply Z.div_pos; lia).
  pose proof (Z.mul_div_le (stop - 0 + 15 - 1) 15 ltac:(lia)) as Hm.
  split; [|exists (Z.of_nat k); lia]. lia.
Qed.

(** X12. Whatever the bob position and the warp radius, the grid routine
    draws one circle for each of the 54 x 40 lattice points, 2160 in all,
    every one on [grid_surf]: either with radius 1 at a lattice point, whose
    coordinates are multiples of 15 inside the 800 x 600 canvas, or with
    radius 2. *)
Theorem draw_warped_grid_dots (warp_center : point) (warp_radius : Z)
        (s : surface) :
  exists dots,
    draw_warped_grid warp_center warp_radius s
    = new_surface grid_surf :: dots ++ [blit s grid_surf (0, 0)%Z]
    /\ length dots = 2160%nat
    /\ forall c, In c dots ->
         exists x y radius,
           c = draw_circle grid_surf (RGBA (50, 50, 50)%Z 150) (x, y) radius
           /\ (radius = 2%Z
               \/ radius = 1%Z
                  /\ (0 <= x < WIDTH)%Z /\ (0 <= y < HEIGHT)%Z
                  /\ (GRID_SPACING | x)%Z /\ (GRID_SPACING | y)%Z).
Proof.
  eexists. split; [reflexivity|]. split.
  - rewrite (flat_map_length_const _ 40).
    + unfold py_range. rewrite length_map, length_seq. reflexivity.
    + intros x. unfold py_range. rewrite !length_map, length_seq.
      reflexivity.
  - intros c Hc. apply in_flat_map in Hc. destruct Hc as [x [Hx Hc]].
    apply in_map_iff in Hc. destruct Hc as [y [<- Hy]].
    apply in_py_range_0 in Hx. apply in_py_range_0 in Hy.
    destruct (takes_warp_branch warp_center warp_radius x y) eqn:E.
    + rewrite grid_dot_warped by exact E. eexists. eexists. eexists.
      split; [reflexivity|left; reflexivity].
    + rewrite grid_dot_raw by exact E. exists x, y, 1%Z.
      split; [reflexivity|right]. tauto.
Qed.

Lemma hypot_sqr (x y : R) : hypot x y * hypot x y = x * x + y * y.
Proof. unfold hypot. apply sqrt_sqrt. nra. Qed.

(** X13. The warp moves a lattice point along its ray from the bob by the
    difference between the quantized and the true radius, which is at most
    half the grid spacing. *)
Theorem warp_displacement (warp_center : point) (x y : Z) :
  let r := grid_r warp_center x y in
  r <> 0 ->
  let '(new_x, new_y) := warp_point warp_center x y in
  hypot (new_x - IZR x) (new_y - IZR y)
  = Rabs (IZR (warp_new_r warp_center x y) - r)
  /\ hypot (new_x - IZR x) (new_y - IZR y) <= IZR GRID_SPACING / 2.
Proof.
  intros r Hr0. unfold warp_point, warp_theta.
  set (dx := grid_dx warp_center x). set (dy := grid_dy warp_center y).
  destruct (cos_sin_atan2 dy dx Hr0) as [Hcos Hsin].
  change (hypot dx dy) with r in Hcos, Hsin. rewrite Hcos, Hsin.
  set (n := IZR (warp_new_r warp_center x y)).
  assert (Hrr : r * r = dx * dx + dy * dy) by apply hypot_sqr.
  assert (E : hypot (fst warp_center + n * (dx / r) - IZR x)
                    (snd warp_center + n * (dy / r) - IZR y)
              = Rabs (n - r)).
  { unfold hypot.
    replace (fst warp_center + n * (dx / r) - IZR x)
      with ((n - r) * (dx / r)) by (unfold dx, grid_dx; field; exact Hr0).
    replace (snd warp_center + n * (dy / r) - IZR y)
      with ((n - r) * (dy / r)) by (unfold dy, grid_dy; field; exact Hr0).
    replace (_ + _) with ((n - r)² * ((dx * dx + dy * dy) / (r * r)))
      by (unfold Rsqr; field; exact Hr0).
    rewrite <- Hrr. replace (r * r / (r * r)) with 1 by (field; exact Hr0).
    rewrite Rmult_1_r. apply sqrt_Rsqr_abs. }
  split; [exact E|]. rewrite E. unfold n, warp_new_r. fold r.
  pose proof (py_round_close (r / IZR GRID_SPACING)) as Hc.
  unfold GRID_SPACING in *. rewrite mult_IZR.
  replace (IZR (py_round (r / 15)) * 15 - r)
    with ((IZR (py_round (r / 15)) - r / 15) * 15) by field.
  rewrite Rabs_mult, (Rabs_pos_eq 15) by lra. lra.
Qed.

Lemma warp_displacement_witness :
  grid_r (1, 0) 0 0 <> 0
  /\ let '(new_x, new_y) := warp_point (1, 0) 0 0 in
     hypot (new_x - 0) (new_y - 0) <= IZR GRID_SPACING / 2.
Proof.
  assert (H : grid_r (1, 0) 0 0 <> 0) by (rewrite grid_r_unit; lra).
  split; [exact H|].
  pose proof (warp_displacement (1, 0) 0 0 H) as W.
  destruct (warp_point (1, 0) 0 0) as [new_x new_y]. exact (proj2 W).
Defined.

(** A point at distance [d >= 0] from a centre in direction [a]. *)
Lemma hypot_polar (cx cy d a : R) :
  0 <= d -> hypot (cx + d * cos a - cx) (cy + d * sin a - cy) = d.
Proof.
  intros Hd. unfold hypot.
  replace (_ + _) with (d * d * ((sin a)² + (cos a)²)) by (unfold Rsqr; ring).
  rewrite sin2_cos2, Rmult_1_r. apply sqrt_square. exact Hd.
Qed.

(** X14. With the warp radius of the main loop a warped point lands on
    one of the eleven rings of radius 0, 15, ..., 150 around the bob. *)
Theorem warp_rings (warp_center : point) (x y : Z) :
  takes_warp_branch warp_center GRID_WARP_RADIUS x y = true ->
  exists k : Z,
    (0 <= k <= 10)%Z
    /\ warp_new_r warp_center x y = (k * GRID_SPACING)%Z
    /\ let '(new_x, new_y) := warp_point warp_center x y in
       hypot (new_x - fst warp_center) (new_y - snd warp_center)
       = IZR (k * GRID_SPACING).
Proof.
  intros H. apply takes_warp_branch_spec in H. destruct H as [Hlt Hne].
  pose proof (hypot_nonneg (grid_dx warp_center x) (grid_dy warp_center y))
    as Hnn. fold (grid_r warp_center x y) in Hnn.
  set (r := grid_r warp_center x y) in *.
  unfold GRID_WARP_RADIUS in Hlt.
  exists (py_round (r / IZR GRID_SPACING)).
  assert (Hk : (0 <= py_round (r / IZR GRID_SPACING) <= 10)%Z).
  { unfold GRID_SPACING. split.
    - apply py_round_nonneg. lra.
    - pose proof (py_round_close (r / 15)) as Hc.
      apply Rabs_le_bounds in Hc.
      assert (IZR (py_round (r / 15)) < IZR 11) by lra.
      apply lt_IZR in H. lia. }
  split; [exact Hk|]. split; [reflexivity|].
  unfold warp_point, warp_new_r. fold r. cbn [fst snd].
  apply hypot_polar. apply IZR_le. unfold GRID_SPACING in *. lia.
Qed.

Lemma warp_rings_witness :
  takes_warp_branch (1, 0) GRID_WARP_RADIUS 0 0 = true
  /\ exists k : Z, (0 <= k <= 10)%Z
                   /\ warp_new_r (1, 0) 0 0 = (k * GRID_SPACING)%Z.
Proof.
  assert (H : takes_warp_branch (1, 0) GRID_WARP_RADIUS 0 0 = true).
  { apply takes_warp_branch_spec. rewrite grid_r_unit.
    unfold GRID_WARP_RADIUS. lra. }
  split; [exact H|].
  destruct (warp_rings (1, 0) 0 0 H) as [k [Hk [E _]]].
  exists k. split; [exact Hk|exact E].
Defined.

(** ** Hexagon rotation and vortex over the run *)

Lemma loop_body_hexagon_angle start_ticks inp st :
  hexagon_angle (fst (loop_body start_ticks inp st))
  = hexagon_angle st + HEXAGON_ROTATION_SPEED.
Proof. reflexivity. Qed.

Lemma loop_body_vortex start_ticks inp st :
  vortex_particles (fst (loop_body start_ticks inp st))
  = map update_particle (vortex_particles st).
Proof. reflexivity. Qed.

(** X15. After [t] ticks the hexagon angle has grown by [t] times 3
    degrees, without wrapping, and every vortex particle has its initial
    radius and its initial angle less [t] times 0.02; the number of
    particles does not change.  Neither depends on the pendulum, the clock
    or the events. *)
Theorem rotation_state_after_ticks start_ticks inputs st (t : nat) :
  let st' := after_ticks start_ticks inputs t st in
  hexagon_angle st' = hexagon_angle st + INR t * radians 3
  /\ vortex_particles st'
     = map (fun p =>
              {| particle_angle := particle_angle p - INR t * 0.02;
                 particle_radius := particle_radius p |})
           (vortex_particles st)
  /\ map particle_radius (vortex_particles st')
     = map particle_radius (vortex_particles st).
Proof.
  cbn zeta.
  assert (Hh : hexagon_angle (after_ticks start_ticks inputs t st)
               = hexagon_angle st + INR t * radians 3).
  { induction t as [|t IH]; [cbn [after_ticks INR]; ring|].
    cbn [after_ticks]. rewrite loop_body_hexagon_angle, IH, S_INR.
    unfold HEXAGON_ROTATION_SPEED. ring. }
  assert (Hv : vortex_particles (after_ticks start_ticks inputs t st)
               = map (fun p =>
                        {| particle_angle := particle_angle p - INR t * 0.02;
                           particle_radius := particle_radius p |})
                     (vortex_particles st)).
  { clear Hh. induction t as [|t IH].
    - cbn [after_ticks]. rewrite <- (map_id (vortex_particles st)) at 1.
      apply map_ext. intros [a r]. cbn [particle_angle particle_radius INR].
      f_equal. ring.
    - cbn [after_ticks]. rewrite loop_body_vortex, IH, map_map.
      apply map_ext. intros [a r]. unfold update_particle.
      cbn [particle_angle particle_radius]. rewrite S_INR.
      unfold VORTEX_ROTATION_SPEED. f_equal; ring. }
  split; [exact Hh|]. split; [exact Hv|].
  rewrite Hv, map_map. reflexivity.
Qed.

(** [int] of a value between two integers lies between them. *)
Lemma py_int_between (v : R) (lo hi : Z) :
  IZR lo <= v <= IZR hi -> (lo <= py_int v <= hi)%Z.
Proof.
  intros [Hlo Hhi]. unfold py_int.
  destruct (Rle_dec 0 v) as [H|H].
  - split; [apply Zfloor_lub; exact Hlo|].
    apply le_IZR. pose proof (Zfloor_bound v). lra.
  - assert (H1 : (- hi <= Zfloor (- v))%Z)
      by (apply Zfloor_lub; rewrite opp_IZR; lra).
    assert (H2 : (Zfloor (- v) <= - lo)%Z).
    { apply le_IZR. rewrite opp_IZR. pose proof (Zfloor_bound (- v)). lra. }
    lia.
Qed.

Lemma draw_particle_in_canvas (p : particle) :
  90 <= particle_radius p <= 110 ->
  vortex_dot_in_canvas (draw_particle screen VORTEX_CENTER p).
Proof.
  intros Hr. unfold draw_particle, vortex_dot_in_canvas.
  eexists. eexists. split; [reflexivity|].
  pose proof (COS_bound (particle_angle p)) as Hc.
  pose proof (SIN_bound (particle_angle p)) as Hs.
  change (IZR (fst VORTEX_CENTER)) with 400.
  change (IZR (snd VORTEX_CENTER)) with 300.
  split; apply py_int_between; nra.
Qed.

(** X16. If the particles start with radii between 90 and 110, as the
    set-up draws them, then in every tick every vortex dot is a white
    circle of radius 1 whose pixel lies within 290..510 by 190..410, inside
    the 800 x 600 canvas. *)
Theorem vortex_dots_in_canvas start_ticks inputs st (t : nat) :
  Forall (fun p => 90 <= particle_radius p <= 110) (vortex_particles st) ->
  Forall vortex_dot_in_canvas
         (map (draw_particle screen VORTEX_CENTER)
              (vortex_particles (after_ticks start_ticks inputs t st))).
Proof.
  intros H. apply Forall_map.
  assert (Hr : Forall (fun p => 90 <= particle_radius p <= 110)
                      (vortex_particles (after_ticks start_ticks inputs t st))).
  { induction t as [|t IH]; [exact H|].
    cbn [after_ticks]. rewrite loop_body_vortex. apply Forall_map.
    eapply Forall_impl; [|exact IH]. intros p Hp. exact Hp. }
  eapply Forall_impl; [|exact Hr]. intros p Hp.
  apply draw_particle_in_canvas. exact Hp.
Qed.

Lemma vortex_dots_in_canvas_witness :
  Forall (fun p => 90 <= particle_radius p <= 110)
         (vortex_particles (initial_state [sample_particle]))
  /\ Forall vortex_dot_in_canvas
            (map (draw_particle screen VORTEX_CENTER)
                 (vortex_particles
                    (after_ticks 0 idle_inputs 3
                                 (initial_state [sample_particle])))).
Proof.
  assert (H : Forall (fun p => 90 <= particle_radius p <= 110)
                     (vortex_particles (initial_state [sample_particle]))).
  { constructor; [|constructor]. cbn [particle_radius sample_particle]. lra. }
  split; [exact H|].
  exact (vortex_dots_in_canvas 0 idle_inputs
                               (initial_state [sample_particle]) 3 H).
Defined.

(** ** Leaving the loop *)

Lemma loop_body_running_stops start_ticks inp st :
  running (fst (loop_body start_ticks inp st))
  = negb (stops start_ticks inp) && running st.
Proof.
  rewrite loop_body_running. unfold stops.
  destruct (over_time_limit _ _), (quit_event inp), (running st);
    reflexivity.
Qed.

Lemma main_loop_unroll start_ticks inputs st (j fuel k0 : nat) :
  (forall i, (i < j)%nat ->
             running (after_ticks start_ticks inputs (k0 + i) st) = true) ->
  main_loop (j + fuel) start_ticks inputs k0
            (after_ticks start_ticks inputs k0 st)
  = main_loop fuel start_ticks inputs (k0 + j)
              (after_ticks start_ticks inputs (k0 + j) st).
Proof.
  revert k0. induction j as [|j IH]; intros k0 H.
  - rewrite Nat.add_0_r. reflexivity.
  - cbn [Nat.add]. rewrite main_loop_step
      by (specialize (H O); rewrite Nat.add_0_r in H; apply H; lia).
    change (fst (loop_body start_ticks (inputs k0)
                           (after_ticks start_ticks inputs k0 st)))
      with (after_ticks start_ticks inputs (S k0) st).
    rewrite IH.
    + replace (S k0 + j)%nat with (k0 + S j)%nat by lia. reflexivity.
    + intros i Hi. replace (S k0 + i)%nat with (k0 + S i)%nat by lia.
      apply H. lia.
Qed.

Lemma running_while_no_stop start_ticks inputs st (k : nat) :
  running st = true ->
  (forall i, (i < k)%nat -> stops start_ticks (inputs i) = false) ->
  running (after_ticks start_ticks inputs k st) = true.
Proof.
  intros Hrun Hs. induction k as [|k IH]; [exact Hrun|].
  cbn [after_ticks]. rewrite loop_body_running_stops, Hs by lia.
  rewrite IH by (intros; apply Hs; lia). reflexivity.
Qed.

(** X17. The loop ends with the first iteration that sees a QUIT event or
    reads a clock past the limit, whichever comes first, and not before:
    if that is iteration [k] (counted from 0), exactly [k + 1] iterations
    are made, the last one in full, and the loop leaves the state they
    produce with [running] false. *)
Theorem main_loop_exit start_ticks inputs st (k fuel : nat) :
  running st = true ->
  (forall i, (i < k)%nat -> stops start_ticks (inputs i) = false) ->
  stops start_ticks (inputs k) = true ->
  (k < fuel)%nat ->
  main_loop fuel start_ticks inputs 0 st
  = Some (S k, after_ticks start_ticks inputs (S k) st)
  /\ running (after_ticks start_ticks inputs (S k) st) = false.
Proof.
  intros Hrun Hs Hk Hf.
  assert (R : running (after_ticks start_ticks inputs (S k) st) = false).
  { cbn [after_ticks]. rewrite loop_body_running_stops, Hk. reflexivity. }
  split; [|exact R].
  replace fuel with (S k + (fuel - S k))%nat by lia.
  change st with (after_ticks start_ticks inputs 0 st) at 1.
  rewrite main_loop_unroll.
  - cbn [Nat.add]. apply main_loop_stopped. exact R.
  - intros i Hi. cbn [Nat.add]. apply running_while_no_stop; [exact Hrun|].
    intros i' Hi'. apply Hs. lia.
Qed.

Lemma main_loop_exit_witness :
  running (initial_state []) = true
  /\ (forall i, (i < 2)%nat -> stops 0 (quit_at_2 i) = false)
  /\ stops 0 (quit_at_2 2) = true
  /\ main_loop 5 0 quit_at_2 0 (initial_state [])
     = Some (3%nat, after_ticks 0 quit_at_2 3 (initial_state [])).
Proof.
  assert (H1 : running (initial_state []) = true) by reflexivity.
  assert (H2 : forall i, (i < 2)%nat -> stops 0 (quit_at_2 i) = false).
  { intros i Hi. destruct i as [|[|i]]; [reflexivity|reflexivity|lia]. }
  assert (H3 : stops 0 (quit_at_2 2) = true) by reflexivity.
  assert (H4 : (2 < 5)%nat) by lia.
  split; [exact H1|]. split; [exact H2|]. split; [exact H3|].
  exact (proj1 (main_loop_exit 0 quit_at_2 (initial_state []) 2 5
                               H1 H2 H3 H4)).
Defined.

(** X18. If no iteration ever sees a QUIT event or reads a clock past the
    limit, the loop does not end: no amount of fuel yields a result. *)
Theorem main_loop_never_ends start_ticks inputs st (fuel : nat) :
  running st = true ->
  (forall i, stops start_ticks (inputs i) = false) ->
  main_loop fuel start_ticks inputs 0 st = None.
Proof.
  intros Hrun Hs.
  replace fuel with (fuel + 0)%nat by lia.
  change st with (after_ticks start_ticks inputs 0 st) at 1.
  rewrite main_loop_unroll.
  - cbn [Nat.add main_loop].
    rewrite running_while_no_stop; [reflexivity|exact Hrun|].
    intros i _. apply Hs.
  - intros i _. cbn [Nat.add]. apply running_while_no_stop; [exact Hrun|].
    intros i' _. apply Hs.
Qed.

Lemma main_loop_never_ends_witness :
  running (initial_state []) = true
  /\ (forall i, stops 0 (idle_inputs i) = false)
  /\ main_loop 1000 0 idle_inputs 0 (initial_state []) = None.
Proof.
  assert (H1 : running (initial_state []) = true) by reflexivity.
  assert (H2 : forall i, stops 0 (idle_inputs i) = false)
    by (intros i; reflexivity).
  split; [exact H1|]. split; [exact H2|].
  exact (main_loop_never_ends 0 idle_inputs (initial_state []) 1000 H1 H2).
Defined.

(** ** Monotone gradient *)

Lemma Qint_floor (q : Q) :
  Qint q = if (0 <=? Qnum q)%Z then Qfloor q else (- Qfloor (- q))%Z.
Proof.
  destruct q as [n d]. unfold Qint, Qfloor, Qopp. cbn [Qnum Qden].
  destruct (Z.leb_spec 0 n) as [H|H].
  - apply Z.quot_div_nonneg; lia.
  - rewrite <- (Z.opp_involutive n) at 1.
    rewrite Z.quot_opp_l by lia. f_equal. apply Z.quot_div_nonneg; lia.
Qed.

(** [int] is monotone. *)
Lemma Qint_le (q q' : Q) : (q <= q')%Q -> (Qint q <= Qint q')%Z.
Proof.
  intros H. rewrite !Qint_floor.
  destruct (Z.leb_spec 0 (Qnum q)) as [Hq|Hq],
           (Z.leb_spec 0 (Qnum q')) as [Hq'|Hq'].
  - apply Qfloor_resp_le. exact H.
  - exfalso. unfold Qle in H.
    pose proof (Pos2Z.is_pos (Qden q)). pose proof (Pos2Z.is_pos (Qden q')).
    nia.
  - assert (H1 : (0 <= Qfloor q')%Z).
    { change 0%Z with (Qfloor 0). apply Qfloor_resp_le.
      unfold Qle. cbn. lia. }
    assert (H2 : (0 <= Qfloor (- q))%Z).
    { change 0%Z with (Qfloor 0). apply Qfloor_resp_le.
      unfold Qle, Qopp. cbn. lia. }
    lia.
  - assert (H1 : (Qfloor (- q') <= Qfloor (- q))%Z)
      by (apply Qfloor_resp_le, Qopp_le_compat; exact H).
    lia.
Qed.

Lemma blend_le (a b : Z) (t t' : Q) :
  (a <= b)%Z -> (t <= t')%Q ->
  (inject_Z a * (1 - t) + inject_Z b * t
   <= inject_Z a * (1 - t') + inject_Z b * t')%Q.
Proof.
  intros Hab Ht. rewrite Zle_Qle in Hab.
  generalize dependent (inject_Z a). generalize (inject_Z b).
  intros B A Hab. Lqa.nra.
Qed.

Lemma blend_ge (a b : Z) (t t' : Q) :
  (b <= a)%Z -> (t <= t')%Q ->
  (inject_Z a * (1 - t') + inject_Z b * t'
   <= inject_Z a * (1 - t) + inject_Z b * t)%Q.
Proof.
  intros Hab Ht. rewrite Zle_Qle in Hab.
  generalize dependent (inject_Z a). generalize (inject_Z b).
  intros B A Hab. Lqa.nra.
Qed.

Lemma trail_t_le (n i j : nat) :
  (2 <= n)%nat -> (i <= j)%nat -> (trail_t n i <= trail_t n j)%Q.
Proof.
  intros Hn Hij. unfold trail_t.
  destruct (Z.of_nat (n - 1)) as [|d|d] eqn:E; try lia.
  unfold Qle. cbn. nia.
Qed.

(** X19. Along the trail the colour moves monotonically from PURPLE
    towards CYAN: from an older segment to a newer one the red channel does
    not increase and the green and blue channels do not decrease. *)
Theorem trail_gradient_monotone (n i j : nat) :
  (2 <= n)%nat -> (i <= j)%nat ->
  let '(r, g, b) := interpolate_color PURPLE CYAN (trail_t n i) in
  let '(r', g', b') := interpolate_color PURPLE CYAN (trail_t n j) in
  (r' <= r)%Z /\ (g <= g')%Z /\ (b <= b')%Z.
Proof.
  intros Hn Hij. pose proof (trail_t_le n i j Hn Hij) as Ht.
  unfold interpolate_color, PURPLE, CYAN.
  split; [|split]; apply Qint_le.
  - apply blend_ge; [lia|exact Ht].
  - apply blend_le; [lia|exact Ht].
  - apply blend_le; [lia|exact Ht].
Qed.

Lemma trail_gradient_monotone_witness :
  (2 <= 8)%nat /\ (0 <= 6)%nat
  /\ let '(r, g, b) := interpolate_color PURPLE CYAN (trail_t 8 0) in
     let '(r', g', b') := interpolate_color PURPLE CYAN (trail_t 8 6) in
     (r' <= r)%Z /\ (g <= g')%Z /\ (b <= b')%Z.
Proof.
  assert (H1 : (2 <= 8)%nat) by lia.
  assert (H2 : (0 <= 6)%nat) by lia.
  split; [exact H1|]. split; [exact H2|].
  exact (trail_gradient_monotone 8 0 6 H1 H2).
Defined.
